(** * Blender Node Renderer: a shallow embedding of render_node_locations.py

    The script drives a host application (Blender, through its [bpy] module):
    it reads the objects of the collection "FPV_nodes", moves the active
    camera to each of them, turns it through a table of compass headings and
    asks the host to render one still image per (node, heading) pair.

    The host is modelled as an explicit store ([Host]); the script's functions
    are computations in a small state/trace/error monad ([Script]).  The
    parts of the host the script only calls (the render engine, and
    [pathlib]'s path join) are the fields of the [Platform] class. *)

From Stdlib Require Import ZArith Floats.PrimFloat Uint63 Strings.Byte.
From Stdlib Require Import Strings.Ascii.
From Stdlib Require Floats.FloatOps Floats.SpecFloat.
From stdpp Require Import gmap strings list fin_maps pretty.

Local Open Scope Z_scope.

(** ** Python's [math] module: what the script uses of it *)

Module math.

(** An [int] argument is converted to a double first; the conversion is
    exact for the magnitudes used here (below 2^53). *)
Definition float_of_int (z : Z) : float :=
  match z with
  | Z0 => PrimFloat.of_uint63 0
  | Zpos _ => PrimFloat.of_uint63 (Uint63.of_Z z)
  | Zneg p => PrimFloat.opp (PrimFloat.of_uint63 (Uint63.of_Z (Zpos p)))
  end.

(** The double nearest to pi. *)
Definition pi : float := 0x1.921fb54442d18p+1%float.

Definition degToRad : float := PrimFloat.div pi (float_of_int 180).

(** [math.radians(x)] is [x * (pi / 180)] in double precision. *)
Definition radians (x : Z) : float := PrimFloat.mul (float_of_int x) degToRad.

End math.

(** ** The host's data *)

(** [mathutils.Vector] of an object's location. *)
Record Vector := mkVector { vx : float; vy : float; vz : float }.

(** A rotation as the script writes it: the list [[x, y, z]] of radians,
    that is (pitch, roll, yaw). *)
Record Euler := mkEuler { pitch : float; roll : float; yaw : float }.

(** An object of the scene graph ([bpy.types.Object]): the camera and the
    nodes are objects alike. *)
Record Object := mkObject {
  name : string;
  location : Vector;
  rotation_euler : Euler
}.

(** Objects are known by identity; two objects may carry the same name. *)
Abbreviation ObjRef := nat.

(** What the engine writes to a file. *)
Abbreviation Image := (list byte).

Record Host := mkHost {
  (** [bpy.data.objects] *)
  objects : gmap ObjRef Object;
  (** [bpy.data.collections]: a collection's [all_objects], in the host's
      enumeration order *)
  collections : gmap string (list ObjRef);
  (** [SCENE.camera]; [None] when the scene has no active camera *)
  scene_camera : option ObjRef;
  (** [SCENE.render.filepath] *)
  filepath : string;
  (** the image files on disk, by path *)
  disk : gmap string Image
}.

(** ** Effects: state, trace of host calls, and exceptions *)

Inductive Event :=
| SetLocation (v : Vector)      (* CAMERA.location = ... *)
| SetRotation (r : Euler)       (* CAMERA.rotation_euler = ... *)
| SetFilepath (p : string)      (* SCENE.render.filepath = ... *)
| Render (p : string).          (* bpy.ops.render.render(write_still=True),
                                   invoked while the output path is [p] *)

Inductive Fault :=
| KeyError (key : string)       (* bpy.data.collections[...] *)
| AttributeError                (* attribute of None *)
| ReferenceError                (* the object behind a reference is gone *)
| RuntimeError.                 (* the render operator failed *)

Inductive Outcome (A : Type) :=
| Done (a : A) (h : Host) (evs : list Event)
| Abort (e : Fault) (h : Host) (evs : list Event).
Arguments Done {A} a h evs.
Arguments Abort {A} e h evs.

Definition Script (A : Type) : Type := Host -> Outcome A.

Definition ret {A} (a : A) : Script A := fun h => Done a h [].

Definition raise {A} (e : Fault) : Script A := fun h => Abort e h [].

Definition bind {A B} (m : Script A) (k : A -> Script B) : Script B :=
  fun h =>
    match m h with
    | Done a h1 e1 =>
        match k a h1 with
        | Done b h2 e2 => Done b h2 (e1 ++ e2)
        | Abort e h2 e2 => Abort e h2 (e1 ++ e2)
        end
    | Abort e h1 e1 => Abort e h1 e1
    end.

Global Instance script_ret : MRet Script := @ret.
Global Instance script_bind : MBind Script := fun A B k m => bind m k.

(** A [for] statement over a list. *)
Fixpoint for_each {A} (xs : list A) (body : A -> Script unit) : Script unit :=
  match xs with
  | [] => ret tt
  | x :: xs' => body x;; for_each xs' body
  end.

(** The host state an outcome ends in, and the calls it made. *)
Definition final_host {A} (o : Outcome A) : Host :=
  match o with Done _ h _ => h | Abort _ h _ => h end.

Definition events {A} (o : Outcome A) : list Event :=
  match o with Done _ _ evs => evs | Abort _ _ evs => evs end.

(** ** The host's interface *)

(** The two services the script calls and does not implement. *)
Class Platform := {
  (** the render engine on the present host state: the image, or a failure *)
  render_engine : Host -> option Image;
  (** [str(Path(a, b))] *)
  Path : string -> string -> string
}.

Module bpy.

(** [bpy.data.collections[key].all_objects] *)
Definition all_objects (key : string) : Script (list ObjRef) :=
  fun h =>
    match collections h !! key with
    | Some objs => Done objs h []
    | None => Abort (KeyError key) h []
    end.

(** [obj.name] *)
Definition get_name (obj : ObjRef) : Script string :=
  fun h =>
    match objects h !! obj with
    | Some o => Done (name o) h []
    | None => Abort ReferenceError h []
    end.

(** Reading through the vector [obj.location] returned: it wraps the
    object's own data, so it shows the location the object has now. *)
Definition read_location (obj : ObjRef) : Script Vector :=
  fun h =>
    match objects h !! obj with
    | Some o => Done (location o) h []
    | None => Abort ReferenceError h []
    end.

Definition with_location (v : Vector) (o : Object) : Object :=
  mkObject (name o) v (rotation_euler o).

Definition with_rotation (r : Euler) (o : Object) : Object :=
  mkObject (name o) (location o) r.

Definition update_object (obj : ObjRef) (o : Object) (h : Host) : Host :=
  mkHost (<[obj := o]> (objects h)) (collections h) (scene_camera h)
         (filepath h) (disk h).

Definition write_location (c : ObjRef) (v : Vector) : Script unit :=
  fun h =>
    match objects h !! c with
    | Some o => Done tt (update_object c (with_location v o) h) [SetLocation v]
    | None => Abort ReferenceError h []
    end.

(** The host keeps an object's rotation in single precision: a double
    written to it is rounded to the nearest single, ties to even (beyond
    the singles' range, to an infinity), and is read back as that single. *)
Definition single (x : float) : float :=
  match FloatOps.Prim2SF x with
  | SpecFloat.S754_finite s m e =>
      FloatOps.SF2Prim (SpecFloat.binary_round 24 128 s m e)
  | _ => x
  end.

Definition single_euler (r : Euler) : Euler :=
  mkEuler (single (pitch r)) (single (roll r)) (single (yaw r)).

(** The event records the value assigned, the object holds it as stored. *)
Definition write_rotation (c : ObjRef) (r : Euler) : Script unit :=
  fun h =>
    match objects h !! c with
    | Some o =>
        Done tt (update_object c (with_rotation (single_euler r) o) h)
             [SetRotation r]
    | None => Abort ReferenceError h []
    end.

(** [cam.location = loc], where [loc] is the (wrapped) location of the
    object [src]: the host copies the three coordinates into [cam]. *)
Definition set_location (cam : option ObjRef) (src : ObjRef) : Script unit :=
  match cam with
  | None => raise AttributeError
  | Some c => v ← read_location src; write_location c v
  end.

(** [cam.rotation_euler = r] *)
Definition set_rotation_euler (cam : option ObjRef) (r : Euler) : Script unit :=
  match cam with
  | None => raise AttributeError
  | Some c => write_rotation c r
  end.

(** [SCENE.render.filepath = p].  The host keeps a path of fewer than
    [FILE_MAX] bytes as it is assigned, and this is what is modelled; it
    cuts a longer one, which is not: what is stated of the value of the
    setting is stated of paths that are [storable]. *)
Definition set_filepath (p : string) : Script unit :=
  fun h =>
    Done tt (mkHost (objects h) (collections h) (scene_camera h) p (disk h))
         [SetFilepath p].

(** The size of the host's buffer for a file path, its end mark included. *)
Definition FILE_MAX : nat := 1024.

(** A path that the output-path setting keeps whole. *)
Definition storable (p : string) : Prop := (String.length p < FILE_MAX)%nat.

Definition write_file (p : string) (img : Image) (h : Host) : Host :=
  mkHost (objects h) (collections h) (scene_camera h) (filepath h)
         (<[p := img]> (disk h)).

(** [bpy.ops.render.render(write_still=True)]: renders the scene and
    writes the image at the current output path, replacing what is there. *)
Definition render `{Platform} : Script unit :=
  fun h =>
    let p := filepath h in
    match render_engine h with
    | Some img => Done tt (write_file p img h) [Render p]
    | None => Abort RuntimeError h [Render p]
    end.

End bpy.

(** ** The script *)

Definition NODE_COLLECTION : string := "FPV_nodes".

(** The table of camera rotations, in the order the dictionary lists them. *)
Definition ROTATION_ANGLES : list (Z * Euler) :=
  [ (0,   mkEuler (math.radians 90) (math.radians 0) (math.radians 0));
    (45,  mkEuler (math.radians 90) (math.radians 0) (math.radians (-45)));
    (90,  mkEuler (math.radians 90) (math.radians 0) (math.radians (-90)));
    (135, mkEuler (math.radians 90) (math.radians 0) (math.radians (-135)));
    (180, mkEuler (math.radians 90) (math.radians 0) (math.radians (-180)));
    (225, mkEuler (math.radians 90) (math.radians 0) (math.radians (-225)));
    (270, mkEuler (math.radians 90) (math.radians 0) (math.radians (-270)));
    (315, mkEuler (math.radians 90) (math.radians 0) (math.radians (-315))) ].

(** The dictionary [{"node": obj.name, "loc": obj.location}]: the name is a
    string of its own, the location is the vector wrapping the object. *)
Record Node := mkNode { node : string; loc : ObjRef }.

(** The loop of [get_node_locations] over the objects still to visit,
    [node_locations] being the list built so far. *)
Fixpoint collect_nodes (objs : list ObjRef) (node_locations : list Node)
  : Script (list Node) :=
  match objs with
  | [] => ret node_locations
  | obj :: rest =>
      nm ← bpy.get_name obj;
      let n := mkNode nm obj in
      collect_nodes rest (node_locations ++ [n])
  end.

Definition get_node_locations : Script (list Node) :=
  objs ← bpy.all_objects NODE_COLLECTION;
  collect_nodes objs [].

(** The f-string [f"{node_name}__angle_{k}.png"]. *)
Definition output_file (node_name : string) (k : Z) : string :=
  node_name +:+ "__angle_" +:+ pretty k +:+ ".png".

Section Globals.

Context `{Platform}.

(** The module's constants, bound once when the script starts. *)
Variable CAMERA : option ObjRef.
Variable OUTPUT_DIR : string.

(** The body of the inner loop, for the table entry [k : v]. *)
Definition render_angle (node_name : string) (kv : Z * Euler) : Script unit :=
  let '(k, v) := kv in
  bpy.set_rotation_euler CAMERA v;;
  bpy.set_filepath (Path OUTPUT_DIR (output_file node_name k));;
  bpy.render.

(** The body of the outer loop, for the dictionary [d]. *)
Definition render_node (d : Node) : Script unit :=
  let node_name := node d in
  bpy.set_location CAMERA (loc d);;
  for_each ROTATION_ANGLES (render_angle node_name).

Definition render_node_angles (nodes : list Node) : Script unit :=
  for_each nodes render_node.

Definition run : Script unit :=
  nodes ← get_node_locations;
  render_node_angles nodes;;
  bpy.set_filepath OUTPUT_DIR.

End Globals.

(** Running the file: the constants are read from the host, then [run()]. *)
Definition script `{Platform} : Script unit :=
  fun h => run (scene_camera h) (filepath h) h.

(** ** Reading a trace *)

(** The output paths of the render invocations, in order. *)
Definition rendered (evs : list Event) : list string :=
  omap (fun e => match e with Render p => Some p | _ => None end) evs.

(** The values written to the output-path setting, in order. *)
Definition paths_set (evs : list Event) : list string :=
  omap (fun e => match e with SetFilepath p => Some p | _ => None end) evs.

(** The camera positions and rotations written, in order. *)
Definition locations_set (evs : list Event) : list Vector :=
  omap (fun e => match e with SetLocation v => Some v | _ => None end) evs.

Definition rotations_set (evs : list Event) : list Euler :=
  omap (fun e => match e with SetRotation r => Some r | _ => None end) evs.

(** ** Sample hosts *)

Module Sample.

(** Joining a directory without trailing separator and a plain file name. *)
Definition plain_join (a b : string) : string := a +:+ "/" +:+ b.

Definition blank : Image := [].

(** An engine that always delivers. *)
Definition steady : Platform :=
  {| render_engine := fun _ => Some blank; Path := plain_join |}.


Definition at_xyz (x y z : Z) : Vector :=
  mkVector (math.float_of_int x) (math.float_of_int y) (math.float_of_int z).

Definition level : Euler :=
  mkEuler (math.float_of_int 0) (math.float_of_int 0) (math.float_of_int 0).

Definition camera_obj : Object := mkObject "Camera" (at_xyz 7 (-7) 2) level.
Definition node1 : Object := mkObject "node1" (at_xyz 0 0 0) level.
Definition node2 : Object := mkObject "node2" (at_xyz 5 0 0) level.

Definition scene_objects : gmap ObjRef Object :=
  <[0%nat := camera_obj]> (<[1%nat := node1]> (<[2%nat := node2]> ∅)).

(** Two empties in FPV_nodes, the camera outside of it. *)
Definition two_nodes : Host :=
  mkHost scene_objects (<[NODE_COLLECTION := [1%nat; 2%nat]]> ∅)
         (Some 0%nat) "/tmp/out" ∅.

(** The collection is there and holds nothing. *)
Definition no_nodes : Host :=
  mkHost scene_objects (<[NODE_COLLECTION := []]> ∅) (Some 0%nat) "/tmp/out" ∅.

(** No collection of that name. *)
Definition no_collection : Host :=
  mkHost scene_objects ∅ (Some 0%nat) "/tmp/out" ∅.

(** The active camera is itself linked into FPV_nodes, before node2. *)
Definition camera_among_nodes : Host :=
  mkHost scene_objects (<[NODE_COLLECTION := [0%nat; 2%nat]]> ∅)
         (Some 0%nat) "/tmp/out" ∅.

(** The markers enumerated from [two_nodes]. *)
Definition markers : list Node := [mkNode "node1" 1%nat; mkNode "node2" 2%nat].

(** The driver on [two_nodes], the camera and base directory being those
    of the host. *)
Definition driven : Outcome unit :=
  @render_node_angles steady (Some 0%nat) "/tmp/out" markers two_nodes.

(** A run, and a second one on the host the first has left. *)
Definition first_run : Outcome unit := @script steady two_nodes.
Definition second_run : Outcome unit := @script steady (final_host first_run).


(** A run with the camera among the markers. *)
Definition camera_run : Outcome unit := @script steady camera_among_nodes.

End Sample.

(** ** Specifications of scripts

    A specification relates the host before a script to the host after it
    and to the calls made, once for a normal return and once for each fault.
    A compositional specification is kept by sequencing and by loops, so
    that it is enough to check it on the host calls. *)

Record Spec := mkSpec {
  on_done : Host -> Host -> list Event -> Prop;
  on_abort : Fault -> Host -> Host -> list Event -> Prop
}.

Class Compositional (S : Spec) : Prop := {
  done_nil : forall h, on_done S h h [];
  done_app : forall h h1 h2 e1 e2,
    on_done S h h1 e1 -> on_done S h1 h2 e2 -> on_done S h h2 (e1 ++ e2);
  abort_app : forall e h h1 h2 e1 e2,
    on_done S h h1 e1 -> on_abort S e h1 h2 e2 -> on_abort S e h h2 (e1 ++ e2)
}.

Definition outcome_ok {A} (S : Spec) (h : Host) (o : Outcome A) : Prop :=
  match o with
  | Done _ h' evs => on_done S h h' evs
  | Abort e h' evs => on_abort S e h h' evs
  end.

Definition meets {A} (S : Spec) (m : Script A) : Prop :=
  forall h, outcome_ok S h (m h).

(** ** What a run is expected to do *)

(** The file name in the spec's words: the marker's name, a double
    underscore, the literal angle_, the integer heading, then .png. *)
Definition spec_filename (marker_name : string) (heading : Z) : string :=
  marker_name +:+ ("__" +:+ ("angle_" +:+ (pretty heading +:+ ".png"))).

Section Expected.

Context `{Platform}.
Variable OUTPUT_DIR : string.

(** The host calls of one (marker, angle) pair. *)
Definition angle_events (node_name : string) (kv : Z * Euler) : list Event :=
  let p := Path OUTPUT_DIR (output_file node_name kv.1) in
  [SetRotation kv.2; SetFilepath p; Render p].

(** The host calls of one marker, the camera being moved to [v]. *)
Definition node_events (d : Node) (v : Vector) : list Event :=
  SetLocation v :: flat_map (angle_events (node d)) ROTATION_ANGLES.

(** The output paths of one marker, in the table's order. *)
Definition node_paths (d : Node) : list string :=
  map (fun kv : Z * Euler => Path OUTPUT_DIR (output_file (node d) kv.1))
      ROTATION_ANGLES.

(** The output paths of all (marker, angle) pairs, markers outermost. *)
Definition marker_major (nodes : list Node) : list string :=
  flat_map node_paths nodes.

End Expected.

(** The markers a host would enumerate from the object references of a
    collection: names copied, locations by reference. *)
Fixpoint nodes_of (objs : gmap ObjRef Object) (refs : list ObjRef)
  : option (list Node) :=
  match refs with
  | [] => Some []
  | i :: rest =>
      match objs !! i, nodes_of objs rest with
      | Some o, Some ns => Some (mkNode (name o) i :: ns)
      | _, _ => None
      end
  end.

(** ** The specifications used below *)

(** Frame: nothing but the render settings, the disk and the object [cam]
    changes, and no object changes its name. *)
Definition framed (cam : option ObjRef) (h h' : Host) : Prop :=
  collections h' = collections h /\
  scene_camera h' = scene_camera h /\
  (forall i, cam <> Some i -> objects h' !! i = objects h !! i) /\
  (forall i, name <$> objects h' !! i = name <$> objects h !! i).

Definition frame_spec (cam : option ObjRef) : Spec :=
  mkSpec (fun h h' _ => framed cam h h') (fun _ h h' _ => framed cam h h').

(** Disk: the files on disk are those there before and those rendered; a
    failed render ends the trace right after the write of its output path,
    which the host keeps. *)
Definition disk_spec : Spec :=
  mkSpec
    (fun h h' evs =>
       dom (disk h') = dom (disk h) ∪ list_to_set (rendered evs))
    (fun e h h' evs =>
       e = RuntimeError ->
       exists pre p,
         evs = pre ++ [SetFilepath p; Render p] /\ filepath h' = p /\
         dom (disk h') = dom (disk h) ∪ list_to_set (rendered pre)).

(** Paths: every value written to the output-path setting is allowed. *)
Definition paths_spec (allowed : string -> Prop) : Spec :=
  mkSpec (fun _ _ evs => Forall allowed (paths_set evs))
         (fun _ _ _ evs => Forall allowed (paths_set evs)).

(** Failure: the render operator's fault is raised on a host on which the
    engine fails. *)
Definition fail_spec `{Platform} : Spec :=
  mkSpec (fun _ _ _ => True)
         (fun e _ h' _ => e = RuntimeError -> render_engine h' = None).

(** Safety: a script aborts only where [pre] fails, and keeps [pre]. *)
Definition safe_spec (pre : Host -> Prop) : Spec :=
  mkSpec (fun h h' _ => pre h -> pre h') (fun _ h _ _ => ~ pre h).

(** The camera and the objects behind [refs] are there. *)
Definition live (cam : option ObjRef) (refs : list ObjRef) (h : Host) : Prop :=
  (exists c, cam = Some c /\ is_Some (objects h !! c)) /\
  Forall (fun i => is_Some (objects h !! i)) refs.

(** ** Further specifications *)

(** The last element of [l], or else [x]. *)
Definition or_last {A} (l : list A) (x : option A) : option A :=
  match last l with
  | Some y => Some y
  | None => x
  end.

(** Latest path: the output-path setting holds the last value written to
    it, or is what it was. *)
Definition latest_path (h h' : Host) (evs : list Event) : Prop :=
  Some (filepath h') = or_last (paths_set evs) (Some (filepath h)).

Definition latest_path_spec : Spec := mkSpec latest_path (fun _ => latest_path).

(** Camera pose: the object [c] has the last position written and, as the
    host stores it, the last rotation written, or those it had. *)
Definition latest_pose (c : ObjRef) (h h' : Host) (evs : list Event) : Prop :=
  location <$> objects h' !! c
  = or_last (locations_set evs) (location <$> objects h !! c) /\
  rotation_euler <$> objects h' !! c
  = or_last (bpy.single_euler <$> rotations_set evs)
            (rotation_euler <$> objects h !! c).

Definition camera_spec (c : ObjRef) : Spec :=
  mkSpec (latest_pose c) (fun _ => latest_pose c).

(** Files: a file whose path no render was invoked on is as it was. *)
Definition other_files_kept (h h' : Host) (evs : list Event) : Prop :=
  forall p, p ∉ rendered evs -> disk h' !! p = disk h !! p.

Definition files_spec : Spec := mkSpec other_files_kept (fun _ => other_files_kept).

(** A script whose trace, read through [f], is [l] when it returns and a
    prefix of [l] when it aborts. *)
Definition traces_to {A B} (f : list Event -> list B) (l : list B)
    (m : Script A) : Prop :=
  forall h,
    match m h with
    | Done _ _ evs => f evs = l
    | Abort _ _ evs => f evs `prefix_of` l
    end.

(** The string [s] does not contain the character [c]. *)
Fixpoint lacks (c : Ascii.ascii) (s : string) : bool :=
  match s with
  | EmptyString => true
  | String a s' => if decide (a = c) then false else lacks c s'
  end.



(** The file names of all (marker, angle) pairs, markers outermost. *)
Definition file_names (nodes : list Node) : list string :=
  flat_map (fun d => map (fun kv : Z * Euler => output_file (node d) kv.1)
                         ROTATION_ANGLES) nodes.

(** ** The monad *)

Lemma bind_Done_inv {A B} (m : Script A) (k : A -> Script B) h b h' evs :
  (m ≫= k) h = Done b h' evs ->
  exists a h1 e1 e2,
    m h = Done a h1 e1 /\ k a h1 = Done b h' e2 /\ evs = e1 ++ e2.
Proof.
  unfold mbind, script_bind, bind.
  destruct (m h) as [a h1 e1|e h1 e1] eqn:Em; [|discriminate].
  destruct (k a h1) as [b' h2 e2|e h2 e2] eqn:Ek; [|discriminate].
  intros [= -> -> <-]. by exists a, h1, e1, e2.
Qed.


Lemma bind_Done_intro {A B} (m : Script A) (k : A -> Script B) h a h1 e1 b h2 e2 :
  m h = Done a h1 e1 -> k a h1 = Done b h2 e2 ->
  (m ≫= k) h = Done b h2 (e1 ++ e2).
Proof. unfold mbind, script_bind, bind. by intros -> ->. Qed.

Lemma for_each_cons_Done_inv {A} (body : A -> Script unit) x xs h u h' evs :
  for_each (x :: xs) body h = Done u h' evs ->
  exists h1 e1 e2,
    body x h = Done tt h1 e1 /\ for_each xs body h1 = Done tt h' e2 /\
    evs = e1 ++ e2.
Proof.
  simpl. intros Hb. apply bind_Done_inv in Hb as ([] & h1 & e1 & e2 & H1 & H2 & ->).
  destruct u. by exists h1, e1, e2.
Qed.

Section Meets.

Context (S : Spec) `{!Compositional S}.

Lemma meets_ret {A} (a : A) : meets S (ret a).
Proof. intros h. simpl. apply done_nil. Qed.

Lemma meets_bind {A B} (m : Script A) (k : A -> Script B) :
  meets S m -> (forall a, meets S (k a)) -> meets S (m ≫= k).
Proof.
  intros Hm Hk h. unfold mbind, script_bind, bind.
  specialize (Hm h). destruct (m h) as [a h1 e1|e h1 e1]; simpl in *; [|done].
  specialize (Hk a h1). destruct (k a h1) as [b h2 e2|e h2 e2]; simpl in *.
  - by eapply done_app.
  - by eapply abort_app.
Qed.

Lemma meets_for_each {A} (xs : list A) (body : A -> Script unit) :
  (forall x, x ∈ xs -> meets S (body x)) -> meets S (for_each xs body).
Proof.
  induction xs as [|x xs IH]; intros Hb; simpl.
  - apply meets_ret.
  - apply meets_bind.
    + apply Hb. by left.
    + intros _. apply IH. intros y Hy. apply Hb. by right.
Qed.

End Meets.

(** ** Traces of loops that return *)

Lemma for_each_Done_flat_map {A} (body : A -> Script unit) (g : A -> list Event) xs :
  (forall x h u h1 e, x ∈ xs -> body x h = Done u h1 e -> e = g x) ->
  forall h u h' evs, for_each xs body h = Done u h' evs -> evs = flat_map g xs.
Proof.
  induction xs as [|x xs IH]; intros Hb h u h' evs Hrun.
  - by injection Hrun as _ _ <-.
  - apply for_each_cons_Done_inv in Hrun as (h1 & e1 & e2 & H1 & H2 & ->).
    simpl. f_equal.
    + eapply Hb; [by left|done].
    + eapply IH; [|done]. intros y k v k1 e Hy. apply Hb. by right.
Qed.

Lemma for_each_Done_zip {A Y} (body : A -> Script unit) (g : A -> Y -> list Event) xs :
  (forall x h u h1 e, x ∈ xs -> body x h = Done u h1 e -> exists y, e = g x y) ->
  forall h u h' evs, for_each xs body h = Done u h' evs ->
  exists ys, length ys = length xs /\
             evs = flat_map (fun xy => g xy.1 xy.2) (zip xs ys).
Proof.
  induction xs as [|x xs IH]; intros Hb h u h' evs Hrun.
  - injection Hrun as _ _ <-. by exists [].
  - apply for_each_cons_Done_inv in Hrun as (h1 & e1 & e2 & H1 & H2 & ->).
    destruct (Hb x h tt h1 e1) as [y ->]; [by left|done|].
    destruct (IH (fun z k v k1 e Hz => Hb z k v k1 e (list_elem_of_further _ _ _ Hz))
                 h1 tt h' e2 H2) as (ys & Hlen & ->).
    exists (y :: ys). split; [simpl; by rewrite Hlen|done].
Qed.

(** Running a host call that is known to return. *)
Ltac run_call H :=
  unfold bpy.set_location, bpy.set_rotation_euler, bpy.write_location,
    bpy.write_rotation, bpy.read_location, bpy.get_name, bpy.all_objects,
    bpy.set_filepath, bpy.render, raise, ret in H;
  repeat (case_match; simplify_eq/=); simplify_eq/=.

Section Driver.

Context `{Platform}.
Variable CAMERA : option ObjRef.
Variable OUTPUT_DIR : string.

Lemma render_angle_Done node_name kv h u h' evs :
  render_angle CAMERA OUTPUT_DIR node_name kv h = Done u h' evs ->
  evs = angle_events OUTPUT_DIR node_name kv.
Proof.
  destruct kv as [k v]. unfold render_angle, angle_events. intros Hrun.
  apply bind_Done_inv in Hrun as (a1 & h1 & e1 & e23 & H1 & Hrun & ->).
  apply bind_Done_inv in Hrun as (a2 & h2 & e2 & e3 & H2 & H3 & ->).
  run_call H1. run_call H2. run_call H3. done.
Qed.

Lemma render_node_Done d h u h' evs :
  render_node CAMERA OUTPUT_DIR d h = Done u h' evs ->
  exists v, evs = node_events OUTPUT_DIR d v.
Proof.
  unfold render_node, node_events. intros Hrun.
  apply bind_Done_inv in Hrun as (a1 & h1 & e1 & e2 & H1 & H2 & ->).
  apply for_each_Done_flat_map with (g := angle_events OUTPUT_DIR (node d)) in H2;
    [|intros; by eapply render_angle_Done].
  subst e2. unfold bpy.set_location in H1. destruct CAMERA as [c|]; [|done].
  apply bind_Done_inv in H1 as (v & h0 & e0 & e1' & H0 & H1 & ->).
  run_call H0. run_call H1. by eexists.
Qed.

(** The position written is the one the marker has as its turn comes. *)
Lemma render_node_Done_location d h u h' evs :
  render_node CAMERA OUTPUT_DIR d h = Done u h' evs ->
  exists o, objects h !! loc d = Some o /\
            evs = node_events OUTPUT_DIR d (location o).
Proof.
  unfold render_node, node_events. intros Hrun.
  apply bind_Done_inv in Hrun as (a1 & h1 & e1 & e2 & H1 & H2 & ->).
  apply for_each_Done_flat_map with (g := angle_events OUTPUT_DIR (node d)) in H2;
    [|intros; by eapply render_angle_Done].
  subst e2. unfold bpy.set_location in H1. destruct CAMERA as [c|]; [|done].
  apply bind_Done_inv in H1 as (v & h0 & e0 & e1' & H0 & H1 & ->).
  run_call H0. run_call H1. by eexists.
Qed.

(** The whole trace of a driver run that returns. *)
Lemma render_node_angles_Done nodes h u h' evs :
  render_node_angles CAMERA OUTPUT_DIR nodes h = Done u h' evs ->
  exists vs, length vs = length nodes /\
    evs = flat_map (fun dv => node_events OUTPUT_DIR dv.1 dv.2) (zip nodes vs).
Proof.
  unfold render_node_angles. apply for_each_Done_zip.
  intros; by eapply render_node_Done.
Qed.

End Driver.

(** ** Reading the expected trace *)

Lemma rendered_app e1 e2 : rendered (e1 ++ e2) = rendered e1 ++ rendered e2.
Proof. apply omap_app. Qed.

Lemma paths_set_app e1 e2 : paths_set (e1 ++ e2) = paths_set e1 ++ paths_set e2.
Proof. apply omap_app. Qed.

Lemma locations_set_app e1 e2 :
  locations_set (e1 ++ e2) = locations_set e1 ++ locations_set e2.
Proof. apply omap_app. Qed.

Lemma rotations_set_app e1 e2 :
  rotations_set (e1 ++ e2) = rotations_set e1 ++ rotations_set e2.
Proof. apply omap_app. Qed.

(** Blocks of equal length laid end to end: the [j]-th entry of the [i]-th
    block sits at index [i * n + j]. *)
Lemma flat_map_lookup_block {A B} (f : A -> list B) (n : nat) xs (i j : nat) x :
  (forall y, length (f y) = n) -> xs !! i = Some x -> (j < n)%nat ->
  flat_map f xs !! (i * n + j)%nat = f x !! j.
Proof.
  intros Hlen. revert i. induction xs as [|y xs IH]; intros i Hi Hj; [done|].
  destruct i as [|i]; simpl in *.
  - injection Hi as ->. apply lookup_app_l. by rewrite Hlen.
  - rewrite lookup_app_r by (rewrite Hlen; lia).
    rewrite Hlen. replace (n + i * n + j - n)%nat with (i * n + j)%nat by lia.
    by apply IH.
Qed.

Lemma flat_map_length_block {A B} (f : A -> list B) (n : nat) xs :
  (forall y, length (f y) = n) -> length (flat_map f xs) = (length xs * n)%nat.
Proof.
  intros Hlen. induction xs as [|y xs IH]; [done|].
  simpl. rewrite length_app, Hlen, IH. lia.
Qed.

Section Expected_facts.

Context `{Platform}.
Variable OUTPUT_DIR : string.

Lemma rendered_angles node_name table :
  rendered (flat_map (angle_events OUTPUT_DIR node_name) table)
  = map (fun kv : Z * Euler => Path OUTPUT_DIR (output_file node_name kv.1)) table.
Proof. induction table as [|kv t IH]; [done|]. simpl. by rewrite <-IH. Qed.

Lemma paths_set_angles node_name table :
  paths_set (flat_map (angle_events OUTPUT_DIR node_name) table)
  = map (fun kv : Z * Euler => Path OUTPUT_DIR (output_file node_name kv.1)) table.
Proof. induction table as [|kv t IH]; [done|]. simpl. by rewrite <-IH. Qed.

Lemma locations_set_angles node_name table :
  locations_set (flat_map (angle_events OUTPUT_DIR node_name) table) = [].
Proof. induction table as [|kv t IH]; [done|]. simpl. by rewrite <-IH. Qed.

Lemma rotations_set_angles node_name table :
  rotations_set (flat_map (angle_events OUTPUT_DIR node_name) table) = map snd table.
Proof. induction table as [|kv t IH]; [done|]. simpl. by rewrite <-IH. Qed.

Lemma rendered_node d v : rendered (node_events OUTPUT_DIR d v) = node_paths OUTPUT_DIR d.
Proof. exact (rendered_angles (node d) ROTATION_ANGLES). Qed.

Lemma paths_set_node d v : paths_set (node_events OUTPUT_DIR d v) = node_paths OUTPUT_DIR d.
Proof. exact (paths_set_angles (node d) ROTATION_ANGLES). Qed.

Lemma locations_set_node d v : locations_set (node_events OUTPUT_DIR d v) = [v].
Proof. exact (f_equal (cons v) (locations_set_angles (node d) ROTATION_ANGLES)). Qed.

Lemma rotations_set_node d v :
  rotations_set (node_events OUTPUT_DIR d v) = map snd ROTATION_ANGLES.
Proof. exact (rotations_set_angles (node d) ROTATION_ANGLES). Qed.

Lemma node_paths_length d : length (node_paths OUTPUT_DIR d) = length ROTATION_ANGLES.
Proof. unfold node_paths. apply length_map. Qed.

(** Projections of a whole driver trace. *)
Lemma project_nodes {B} (f : list Event -> list B) (g : Node -> Vector -> list B)
    (nodes : list Node) (vs : list Vector) :
  f [] = [] -> (forall a b, f (a ++ b) = f a ++ f b) ->
  (forall d v, f (node_events OUTPUT_DIR d v) = g d v) ->
  f (flat_map (fun dv => node_events OUTPUT_DIR dv.1 dv.2) (zip nodes vs))
  = flat_map (fun dv => g dv.1 dv.2) (zip nodes vs).
Proof.
  intros Hnil Happ Hg. induction (zip nodes vs) as [|[d v] l IH]; [done|].
  cbn [flat_map]. by rewrite Happ, Hg, IH.
Qed.

Lemma flat_map_zip_l {B} (g : Node -> list B) (nodes : list Node) (vs : list Vector) :
  length vs = length nodes ->
  flat_map (fun dv : Node * Vector => g dv.1) (zip nodes vs) = flat_map g nodes.
Proof.
  revert vs. induction nodes as [|d nodes IH]; intros [|v vs] Hlen; try done.
  simpl. f_equal. apply IH. by injection Hlen.
Qed.

Lemma flat_map_zip_r (nodes : list Node) (vs : list Vector) :
  length vs = length nodes ->
  flat_map (fun dv : Node * Vector => [dv.2]) (zip nodes vs) = vs.
Proof.
  revert vs. induction nodes as [|d nodes IH]; intros [|v vs] Hlen; try done.
  simpl. f_equal. apply IH. by injection Hlen.
Qed.

Lemma rendered_driver_trace nodes vs :
  length vs = length nodes ->
  rendered (flat_map (fun dv => node_events OUTPUT_DIR dv.1 dv.2) (zip nodes vs))
  = marker_major OUTPUT_DIR nodes.
Proof.
  intros Hlen.
  rewrite (project_nodes rendered (fun d _ => node_paths OUTPUT_DIR d));
    [by apply flat_map_zip_l|done|apply rendered_app|apply rendered_node].
Qed.

Lemma paths_set_driver_trace nodes vs :
  length vs = length nodes ->
  paths_set (flat_map (fun dv => node_events OUTPUT_DIR dv.1 dv.2) (zip nodes vs))
  = marker_major OUTPUT_DIR nodes.
Proof.
  intros Hlen.
  rewrite (project_nodes paths_set (fun d _ => node_paths OUTPUT_DIR d));
    [by apply flat_map_zip_l|done|apply paths_set_app|apply paths_set_node].
Qed.

Lemma marker_major_length nodes :
  length (marker_major OUTPUT_DIR nodes)
  = (length nodes * length ROTATION_ANGLES)%nat.
Proof. apply flat_map_length_block, node_paths_length. Qed.

Lemma marker_major_lookup nodes (i j : nat) d kv :
  nodes !! i = Some d -> ROTATION_ANGLES !! j = Some kv ->
  marker_major OUTPUT_DIR nodes !! (i * length ROTATION_ANGLES + j)%nat
  = Some (Path OUTPUT_DIR (output_file (node d) kv.1)).
Proof.
  intros Hd Hkv. unfold marker_major.
  rewrite (flat_map_lookup_block _ (length ROTATION_ANGLES) nodes i j d);
    [|apply node_paths_length|done|by eapply lookup_lt_Some].
  unfold node_paths. by rewrite list_lookup_fmap, Hkv.
Qed.

End Expected_facts.

(** ** The render driver: order and number of host calls *)

(** C1: when the driver returns, it has invoked the render operator exactly
    once per (marker, angle-table entry) pair, markers outermost and table
    entries innermost: the rendered paths, and the output paths set before
    them, are the marker-major list of paths, the pair (i, j) being served
    at position i * (table length) + j. *)
Theorem render_node_angles_marker_major `{Platform}
    (CAMERA : option ObjRef) (OUTPUT_DIR : string) (nodes : list Node)
    (h : Host) (u : unit) (h' : Host) (evs : list Event) :
  render_node_angles CAMERA OUTPUT_DIR nodes h = Done u h' evs ->
  rendered evs = marker_major OUTPUT_DIR nodes /\
  paths_set evs = marker_major OUTPUT_DIR nodes /\
  length (rendered evs) = (length nodes * length ROTATION_ANGLES)%nat /\
  forall (i j : nat) d kv,
    nodes !! i = Some d -> ROTATION_ANGLES !! j = Some kv ->
    rendered evs !! (i * length ROTATION_ANGLES + j)%nat
    = Some (Path OUTPUT_DIR (output_file (node d) kv.1)).
Proof.
  intros Hrun.
  apply render_node_angles_Done in Hrun as (vs & Hlen & ->).
  rewrite rendered_driver_trace, paths_set_driver_trace by done.
  repeat split.
  - apply marker_major_length.
  - apply marker_major_lookup.
Qed.

(** C7: when the driver returns, its trace is, marker after marker, one
    write of the camera's position followed by, for each table entry, one
    write of the camera's rotation, the write of the output path and the
    render invocation: the position is written once per marker and before
    that marker's renders, the rotation once per pair and before its render. *)
Theorem camera_written_once_per_marker_and_pair `{Platform}
    (CAMERA : option ObjRef) (OUTPUT_DIR : string) (nodes : list Node)
    (h : Host) (u : unit) (h' : Host) (evs : list Event) :
  render_node_angles CAMERA OUTPUT_DIR nodes h = Done u h' evs ->
  evs = flat_map (fun dv => node_events OUTPUT_DIR dv.1 dv.2)
                 (zip nodes (locations_set evs)) /\
  length (locations_set evs) = length nodes /\
  rotations_set evs = flat_map (fun _ => map snd ROTATION_ANGLES) nodes /\
  length (rotations_set evs) = length (rendered evs).
Proof.
  intros Hrun.
  apply render_node_angles_Done in Hrun as (vs & Hlen & Hevs).
  assert (Hn : length (rendered evs) = (length nodes * length ROTATION_ANGLES)%nat).
  { rewrite Hevs, rendered_driver_trace by done. apply marker_major_length. }
  assert (Hl : locations_set evs = vs).
  { rewrite Hevs, (project_nodes OUTPUT_DIR locations_set (fun _ v => [v]));
      [by apply flat_map_zip_r|done|apply locations_set_app|apply locations_set_node]. }
  assert (Hr : rotations_set evs = flat_map (fun _ => map snd ROTATION_ANGLES) nodes).
  { rewrite Hevs, (project_nodes OUTPUT_DIR rotations_set
                     (fun _ _ => map snd ROTATION_ANGLES));
      [by apply (flat_map_zip_l (fun _ => map snd ROTATION_ANGLES))|done
      |apply rotations_set_app|apply rotations_set_node]. }
  rewrite Hl. repeat split; [done..|].
  rewrite Hr, Hn. apply flat_map_length_block. intros _. apply length_map.
Qed.

(** ** Output paths *)

(** C2: the file name computed for a marker and a heading is the marker's
    name, a double underscore, angle_, the heading as a decimal integer and
    .png; the path set on the host (and rendered to) for the pair (i, j) of
    a driver run is the base directory joined with that file name. *)
Theorem output_path_is_base_joined_with_filename `{Platform}
    (CAMERA : option ObjRef) (OUTPUT_DIR : string) (nodes : list Node)
    (h : Host) (u : unit) (h' : Host) (evs : list Event) :
  render_node_angles CAMERA OUTPUT_DIR nodes h = Done u h' evs ->
  (forall m k, output_file m k = spec_filename m k) /\
  map (fun kv : Z * Euler => output_file "node1" kv.1) ROTATION_ANGLES
  = ["node1__angle_0.png"; "node1__angle_45.png"; "node1__angle_90.png";
     "node1__angle_135.png"; "node1__angle_180.png"; "node1__angle_225.png";
     "node1__angle_270.png"; "node1__angle_315.png"] /\
  forall (i j : nat) d kv,
    nodes !! i = Some d -> ROTATION_ANGLES !! j = Some kv ->
    paths_set evs !! (i * length ROTATION_ANGLES + j)%nat
    = Some (Path OUTPUT_DIR (spec_filename (node d) kv.1)).
Proof.
  intros Hrun.
  assert (Hname : forall m k, output_file m k = spec_filename m k).
  { intros m k. reflexivity. }
  split; [done|]. split; [done|].
  intros i j d kv Hd Hkv. rewrite <-Hname.
  apply render_node_angles_Done in Hrun as (vs & Hlen & ->).
  rewrite paths_set_driver_trace by done. by apply marker_major_lookup.
Qed.

(** ** The rotation table *)

(** C3: in every entry of the rotation table the pitch is 90 degrees in
    radians and the yaw is the negated heading in radians (which is also,
    as a double, the negation of the heading's radians). *)
Theorem rotation_table_pitch_and_yaw :
  Forall (fun kv : Z * Euler =>
            pitch kv.2 = math.radians 90 /\
            yaw kv.2 = math.radians (- kv.1) /\
            PrimFloat.eqb (yaw kv.2) (PrimFloat.opp (math.radians kv.1)) = true)
         ROTATION_ANGLES.
Proof. repeat constructor. Qed.

(** ** The marker enumerator *)

Lemma collect_nodes_eq objs acc h :
  collect_nodes objs acc h
  = match nodes_of (objects h) objs with
    | Some ns => Done (acc ++ ns) h []
    | None => Abort ReferenceError h []
    end.
Proof.
  revert acc. induction objs as [|i objs IH]; intros acc; simpl.
  - unfold ret. by rewrite app_nil_r.
  - unfold mbind, script_bind, bind, bpy.get_name.
    destruct (objects h !! i) as [o|]; [|done].
    rewrite IH. destruct (nodes_of (objects h) objs) as [ns|]; [|done].
    by rewrite <-app_assoc.
Qed.

Lemma get_node_locations_eq h :
  get_node_locations h
  = match collections h !! NODE_COLLECTION with
    | None => Abort (KeyError NODE_COLLECTION) h []
    | Some objs =>
        match nodes_of (objects h) objs with
        | Some ns => Done ns h []
        | None => Abort ReferenceError h []
        end
    end.
Proof.
  unfold get_node_locations, mbind, script_bind, bind, bpy.all_objects.
  destruct (collections h !! NODE_COLLECTION) as [objs|]; [|done].
  rewrite collect_nodes_eq. by destruct (nodes_of (objects h) objs).
Qed.

Lemma nodes_of_loc objs refs ns : nodes_of objs refs = Some ns -> map loc ns = refs.
Proof.
  revert ns. induction refs as [|i refs IH]; intros ns; simpl.
  - by intros [= <-].
  - destruct (objs !! i) as [o|]; [|done].
    destruct (nodes_of objs refs) as [ns'|]; [|done].
    intros [= <-]. simpl. f_equal. by apply IH.
Qed.

Lemma nodes_of_name objs refs ns (j : nat) d :
  nodes_of objs refs = Some ns -> ns !! j = Some d ->
  name <$> objs !! loc d = Some (node d).
Proof.
  revert ns j. induction refs as [|i refs IH]; intros ns j; simpl.
  - by intros [= <-].
  - destruct (objs !! i) as [o|] eqn:Ho; [|done].
    destruct (nodes_of objs refs) as [ns'|]; [|done].
    intros [= <-]. destruct j as [|j]; simpl.
    + intros [= <-]. simpl. by rewrite Ho.
    + by apply IH.
Qed.

Lemma nodes_of_live objs refs :
  Forall (fun i => is_Some (objs !! i)) refs -> is_Some (nodes_of objs refs).
Proof.
  induction 1 as [|i refs [o Ho] _ [ns Hns]]; simpl; [done|].
  by rewrite Ho, Hns.
Qed.

(** The enumeration reads names only. *)
Lemma nodes_of_ext objs1 objs2 refs :
  (forall i, name <$> objs1 !! i = name <$> objs2 !! i) ->
  nodes_of objs1 refs = nodes_of objs2 refs.
Proof.
  intros Hext. induction refs as [|i refs IH]; simpl; [done|].
  specialize (Hext i). rewrite IH.
  destruct (objs1 !! i) as [o1|], (objs2 !! i) as [o2|]; simplify_eq/=; try done.
  by rewrite Hext.
Qed.

(** ** The run as a whole *)

Section Run.

Context `{Platform}.

(** The run, with the enumeration evaluated. *)
Lemma script_eq h :
  script h
  = match collections h !! NODE_COLLECTION with
    | None => Abort (KeyError NODE_COLLECTION) h []
    | Some objs =>
        match nodes_of (objects h) objs with
        | None => Abort ReferenceError h []
        | Some nodes =>
            (render_node_angles (scene_camera h) (filepath h) nodes;;
             bpy.set_filepath (filepath h)) h
        end
    end.
Proof.
  unfold script, run. unfold mbind at 1, script_bind at 1, bind at 1.
  rewrite get_node_locations_eq.
  destruct (collections h !! NODE_COLLECTION) as [objs|]; [|done].
  destruct (nodes_of (objects h) objs) as [nodes|]; [|done].
  simpl. by case_match.
Qed.

Lemma script_Done_inv h u h' evs :
  script h = Done u h' evs ->
  exists objs nodes h1 e1,
    collections h !! NODE_COLLECTION = Some objs /\
    nodes_of (objects h) objs = Some nodes /\
    render_node_angles (scene_camera h) (filepath h) nodes h = Done tt h1 e1 /\
    h' = mkHost (objects h1) (collections h1) (scene_camera h1) (filepath h)
                (disk h1) /\
    evs = e1 ++ [SetFilepath (filepath h)].
Proof.
  rewrite script_eq.
  destruct (collections h !! NODE_COLLECTION) as [objs|] eqn:Hc; [|done].
  destruct (nodes_of (objects h) objs) as [nodes|] eqn:Hn; [|done].
  intros Hrun. apply bind_Done_inv in Hrun as ([] & h1 & e1 & e2 & H1 & H2 & ->).
  run_call H2. by exists objs, nodes, h1, e1.
Qed.


End Run.

(** C4: after a run that returns, the host's output-path setting is the
    value read from it when the script started, and the last write to the
    setting in the run is the write of that value. *)
Theorem output_path_restored `{Platform} (h : Host) (u : unit) (h' : Host)
    (evs : list Event) :
  script h = Done u h' evs ->
  filepath h' = filepath h /\ last (paths_set evs) = Some (filepath h).
Proof.
  intros Hrun.
  apply script_Done_inv in Hrun as (objs & nodes & h1 & e1 & _ & _ & _ & -> & ->).
  split; [done|]. rewrite paths_set_app. simpl. apply last_snoc.
Qed.

(** C5: without a collection named FPV_nodes the run aborts with the
    lookup's fault, having made no host call (so no render invocation) and
    leaving the host, its disk included, as it was. *)
Theorem missing_collection_aborts `{Platform} (h : Host) :
  collections h !! NODE_COLLECTION = None ->
  script h = Abort (KeyError NODE_COLLECTION) h [].
Proof. intros Hnone. rewrite script_eq. by rewrite Hnone. Qed.

(** C10: with an empty collection FPV_nodes the run returns and leaves the
    host as it was (camera, disk and output-path setting alike); its only
    host call is the final write of the captured base directory to the
    output-path setting. *)
Theorem empty_collection_run `{Platform} (h : Host) :
  collections h !! NODE_COLLECTION = Some [] ->
  exists evs,
    script h = Done tt h evs /\
    rendered evs = [] /\ locations_set evs = [] /\ rotations_set evs = [] /\
    paths_set evs = [filepath h].
Proof.
  intros Hempty. exists [SetFilepath (filepath h)].
  split; [|done]. rewrite script_eq, Hempty. by destruct h.
Qed.

(** ** Specifications met by the render driver *)

Section Driver_meets.

Context `{Platform}.
Context (S : Spec) `{!Compositional S}.
Variable CAMERA : option ObjRef.
Variable OUTPUT_DIR : string.

Lemma render_angle_meets node_name kv :
  meets S (bpy.set_rotation_euler CAMERA kv.2) ->
  meets S (bpy.set_filepath (Path OUTPUT_DIR (output_file node_name kv.1))) ->
  meets S bpy.render ->
  meets S (render_angle CAMERA OUTPUT_DIR node_name kv).
Proof.
  destruct kv as [k v]. intros Hrot Hpath Hrender. unfold render_angle.
  apply meets_bind; [done..|]. intros _. by apply meets_bind.
Qed.

Lemma render_node_meets d :
  meets S (bpy.set_location CAMERA (loc d)) ->
  (forall kv, kv ∈ ROTATION_ANGLES ->
              meets S (render_angle CAMERA OUTPUT_DIR (node d) kv)) ->
  meets S (render_node CAMERA OUTPUT_DIR d).
Proof.
  intros Hloc Hangle. unfold render_node.
  apply meets_bind; [done..|]. intros _. by apply meets_for_each.
Qed.

Lemma render_node_angles_meets nodes :
  (forall d, d ∈ nodes -> meets S (bpy.set_location CAMERA (loc d))) ->
  (forall d kv, d ∈ nodes -> kv ∈ ROTATION_ANGLES ->
                meets S (render_angle CAMERA OUTPUT_DIR (node d) kv)) ->
  meets S (render_node_angles CAMERA OUTPUT_DIR nodes).
Proof.
  intros Hloc Hangle. apply meets_for_each; [done|].
  intros d Hd. apply render_node_meets; [by apply Hloc|].
  intros kv Hkv. by apply Hangle.
Qed.

End Driver_meets.

(** *** The frame *)

Lemma framed_refl cam h : framed cam h h.
Proof. by repeat split. Qed.

Lemma framed_trans cam h1 h2 h3 : framed cam h1 h2 -> framed cam h2 h3 -> framed cam h1 h3.
Proof.
  intros (Hc & Hs & Ho & Hn) (Hc' & Hs' & Ho' & Hn'). repeat split.
  - congruence.
  - congruence.
  - intros i Hi. by rewrite Ho', Ho.
  - intros i. by rewrite Hn', Hn.
Qed.

Global Instance frame_compositional cam : Compositional (frame_spec cam).
Proof.
  split; simpl.
  - intros h. apply framed_refl.
  - intros h h1 h2 _ _. apply framed_trans.
  - intros _ h h1 h2 _ _. apply framed_trans.
Qed.

Lemma framed_update c o o' h :
  objects h !! c = Some o -> name o' = name o ->
  framed (Some c) h (bpy.update_object c o' h).
Proof.
  intros Ho Hname. repeat split; simpl.
  - intros i Hi. apply lookup_insert_ne. congruence.
  - intros i. destruct (decide (c = i)) as [<-|Hne].
    + rewrite lookup_insert_eq, Ho. simpl. by rewrite Hname.
    + by rewrite lookup_insert_ne.
Qed.

Lemma set_location_frame cam src : meets (frame_spec cam) (bpy.set_location cam src).
Proof.
  intros h. unfold bpy.set_location. destruct cam as [c|]; [|apply framed_refl].
  unfold mbind, script_bind, bind, bpy.read_location, bpy.write_location.
  destruct (objects h !! src) as [o|]; [|apply framed_refl].
  destruct (objects h !! c) as [oc|] eqn:Hc; [|apply framed_refl].
  simpl. by eapply framed_update.
Qed.

Lemma set_rotation_euler_frame cam r :
  meets (frame_spec cam) (bpy.set_rotation_euler cam r).
Proof.
  intros h. unfold bpy.set_rotation_euler. destruct cam as [c|]; [|apply framed_refl].
  unfold bpy.write_rotation.
  destruct (objects h !! c) as [oc|] eqn:Hc; [|apply framed_refl].
  simpl. by eapply framed_update.
Qed.

Lemma set_filepath_frame cam p : meets (frame_spec cam) (bpy.set_filepath p).
Proof. intros h. by repeat split. Qed.

Lemma render_frame `{Platform} cam : meets (frame_spec cam) bpy.render.
Proof.
  intros h. unfold bpy.render. destruct (render_engine h); by repeat split.
Qed.

Lemma render_angle_frame `{Platform} cam dir node_name kv :
  meets (frame_spec cam) (render_angle cam dir node_name kv).
Proof.
  apply render_angle_meets; [apply _|..].
  - apply set_rotation_euler_frame.
  - apply set_filepath_frame.
  - apply render_frame.
Qed.

Lemma render_node_frame `{Platform} cam dir d :
  meets (frame_spec cam) (render_node cam dir d).
Proof.
  apply render_node_meets; [apply _|apply set_location_frame|].
  intros; apply render_angle_frame.
Qed.

Lemma render_node_angles_frame `{Platform} cam dir nodes :
  meets (frame_spec cam) (render_node_angles cam dir nodes).
Proof.
  apply render_node_angles_meets; [apply _|intros; apply set_location_frame|].
  intros; apply render_angle_frame.
Qed.

(** The run keeps the frame of the camera the scene had when it started. *)
Lemma script_frame `{Platform} h :
  framed (scene_camera h) h (final_host (script h)).
Proof.
  rewrite script_eq.
  destruct (collections h !! NODE_COLLECTION) as [objs|]; [|apply framed_refl].
  destruct (nodes_of (objects h) objs) as [nodes|]; [|apply framed_refl].
  match goal with |- context [?m h] =>
    assert (Hm : meets (frame_spec (scene_camera h)) m);
    [|specialize (Hm h); by destruct (m h)]
  end.
  apply meets_bind; [apply _|apply render_node_angles_frame|].
  intros _. apply set_filepath_frame.
Qed.

(** ** The positions the camera is moved to *)

(** With the camera outside the markers, the positions written to it are
    the markers' positions, in order, as they were when the driver started. *)
Lemma locations_written_are_marker_positions `{Platform} cam dir nodes :
  (forall c, cam = Some c -> c ∉ map loc nodes) ->
  forall h0 h u h' evs,
    (forall i, i ∈ map loc nodes -> objects h !! i = objects h0 !! i) ->
    render_node_angles cam dir nodes h = Done u h' evs ->
    Forall2 (fun d v => location <$> objects h0 !! loc d = Some v)
            nodes (locations_set evs).
Proof.
  unfold render_node_angles.
  induction nodes as [|d nodes IH]; intros Hcam h0 h u h' evs Hsame Hrun.
  - injection Hrun as _ _ <-. constructor.
  - apply for_each_cons_Done_inv in Hrun as (h1 & e1 & e2 & H1 & H2 & ->).
    pose proof (render_node_frame cam dir d h) as Hframe.
    rewrite H1 in Hframe. destruct Hframe as (_ & _ & Hobj & _).
    apply render_node_Done_location in H1 as (o & Ho & ->).
    rewrite locations_set_app, locations_set_node. constructor.
    + rewrite <-Hsame, Ho; [done|]. simpl. by left.
    + apply (IH (fun c Hc Hin => Hcam c Hc (list_elem_of_further _ _ _ Hin))
                h0 h1 tt h' e2); [|done].
      intros i Hi. rewrite Hobj.
      * apply Hsame. simpl. by right.
      * intros ->. eapply Hcam; [done|]. simpl. by right.
Qed.

(** *** The disk *)

Global Instance disk_compositional : Compositional disk_spec.
Proof.
  split; simpl.
  - intros h. set_solver.
  - intros h h1 h2 e1 e2 H1 H2.
    rewrite rendered_app, list_to_set_app_L, H2, H1. set_solver.
  - intros e h h1 h2 e1 e2 H1 H2 He.
    destruct (H2 He) as (pre & p & -> & Hp & Hd).
    exists (e1 ++ pre), p. split; [by rewrite app_assoc|]. split; [done|].
    rewrite rendered_app, list_to_set_app_L, Hd, H1. set_solver.
Qed.

Lemma set_location_disk cam src : meets disk_spec (bpy.set_location cam src).
Proof.
  intros h. unfold bpy.set_location. destruct cam as [c|]; [|done].
  unfold mbind, script_bind, bind, bpy.read_location, bpy.write_location.
  destruct (objects h !! src) as [o|]; [|done].
  destruct (objects h !! c) as [oc|]; [|done].
  simpl. set_solver.
Qed.

Lemma set_filepath_disk p : meets disk_spec (bpy.set_filepath p).
Proof. intros h. simpl. set_solver. Qed.

(** One (marker, angle) step, taken as a whole. *)
Lemma render_angle_disk `{Platform} cam dir node_name kv :
  meets disk_spec (render_angle cam dir node_name kv).
Proof.
  destruct kv as [k v]. intros h. unfold render_angle, bpy.set_rotation_euler.
  destruct cam as [c|]; [|done].
  unfold mbind, script_bind, bind, bpy.write_rotation, bpy.set_filepath, bpy.render.
  destruct (objects h !! c) as [oc|]; [|done]. simpl.
  destruct (render_engine _) as [img|]; simpl.
  - rewrite dom_insert_L. set_solver.
  - intros _. eexists [SetRotation v], _. split; [done|]. split; [done|].
    simpl. set_solver.
Qed.

Lemma render_node_angles_disk `{Platform} cam dir nodes :
  meets disk_spec (render_node_angles cam dir nodes).
Proof.
  apply render_node_angles_meets; [apply _| |].
  - intros; apply set_location_disk.
  - intros; apply render_angle_disk.
Qed.

(** *** The paths *)

Global Instance paths_compositional allowed : Compositional (paths_spec allowed).
Proof.
  split; simpl.
  - intros _. constructor.
  - intros _ _ _ e1 e2 H1 H2. rewrite paths_set_app. by apply Forall_app.
  - intros _ _ _ _ e1 e2 H1 H2. rewrite paths_set_app. by apply Forall_app.
Qed.





(** *** Safety: when the run returns *)

Global Instance safe_compositional pre : Compositional (safe_spec pre).
Proof. split; simpl; auto. Qed.

Lemma framed_live cam refs h h' : framed cam h h' -> live cam refs h -> live cam refs h'.
Proof.
  intros (_ & _ & _ & Hname) [(c & -> & Hc) Hrefs].
  assert (Hkeep : forall i, is_Some (objects h !! i) -> is_Some (objects h' !! i)).
  { intros i Hi. apply (fmap_is_Some name). rewrite Hname. by apply fmap_is_Some. }
  split; [exists c; auto|]. eapply Forall_impl; [done|]. auto.
Qed.

(** A script that keeps the frame and aborts only from hosts that are not
    live is safe. *)
Lemma safe_of_frame {A} cam refs (m : Script A) :
  meets (frame_spec cam) m ->
  (forall h e h' evs, m h = Abort e h' evs -> ~ live cam refs h) ->
  meets (safe_spec (live cam refs)) m.
Proof.
  intros Hframe Habort h. specialize (Hframe h). specialize (Habort h).
  destruct (m h) as [a h' evs|e h' evs]; simpl in *.
  - by apply framed_live.
  - by eapply Habort.
Qed.

Lemma set_location_safe cam refs src :
  src ∈ refs -> meets (safe_spec (live cam refs)) (bpy.set_location cam src).
Proof.
  intros Hsrc. apply safe_of_frame; [apply set_location_frame|].
  intros h e h' evs Hrun [(c & -> & Hc) Hrefs].
  rewrite Forall_forall in Hrefs. destruct (Hrefs src Hsrc) as [o Ho].
  destruct Hc as [oc Hoc]. revert Hrun.
  unfold bpy.set_location, mbind, script_bind, bind, bpy.read_location,
    bpy.write_location.
  by rewrite Ho, Hoc.
Qed.

Lemma set_rotation_euler_safe cam refs r :
  meets (safe_spec (live cam refs)) (bpy.set_rotation_euler cam r).
Proof.
  apply safe_of_frame; [apply set_rotation_euler_frame|].
  intros h e h' evs Hrun [(c & -> & [oc Hoc]) _]. revert Hrun.
  unfold bpy.set_rotation_euler, bpy.write_rotation. by rewrite Hoc.
Qed.

Lemma set_filepath_safe cam refs p :
  meets (safe_spec (live cam refs)) (bpy.set_filepath p).
Proof. apply safe_of_frame; [apply set_filepath_frame|done]. Qed.

Lemma render_safe `{Platform} cam refs :
  (forall h, is_Some (render_engine h)) ->
  meets (safe_spec (live cam refs)) bpy.render.
Proof.
  intros Htotal. apply safe_of_frame; [apply render_frame|].
  intros h e h' evs. unfold bpy.render. by destruct (Htotal h) as [img ->].
Qed.

Lemma render_node_angles_safe `{Platform} cam dir nodes :
  (forall h, is_Some (render_engine h)) ->
  meets (safe_spec (live cam (map loc nodes))) (render_node_angles cam dir nodes).
Proof.
  intros Htotal. apply render_node_angles_meets; [apply _| |].
  - intros d Hd. apply set_location_safe. by apply list_elem_of_fmap_2.
  - intros d kv _ _. apply render_angle_meets; [apply _|..].
    + apply set_rotation_euler_safe.
    + apply set_filepath_safe.
    + by apply render_safe.
Qed.

(** With an engine that never fails, a camera that is there and markers
    that are there, the driver returns. *)
Lemma render_node_angles_returns `{Platform} cam dir nodes h :
  (forall g, is_Some (render_engine g)) ->
  live cam (map loc nodes) h ->
  exists h' evs, render_node_angles cam dir nodes h = Done tt h' evs.
Proof.
  intros Htotal Hlive.
  pose proof (render_node_angles_safe cam dir nodes Htotal h) as Hsafe.
  destruct (render_node_angles cam dir nodes h) as [[] h' evs|e h' evs]; simpl in *.
  - by exists h', evs.
  - done.
Qed.

(** And so does the whole run. *)
Lemma script_returns `{Platform} h refs :
  (forall g, is_Some (render_engine g)) ->
  collections h !! NODE_COLLECTION = Some refs ->
  live (scene_camera h) refs h ->
  exists h' evs, script h = Done tt h' evs.
Proof.
  intros Htotal Hrefs Hlive. rewrite script_eq, Hrefs.
  destruct (nodes_of_live (objects h) refs) as [nodes Hnodes]; [apply Hlive|].
  rewrite Hnodes.
  destruct (render_node_angles_returns (scene_camera h) (filepath h) nodes h)
    as (h1 & e1 & Hrun); [done|by rewrite (nodes_of_loc _ _ _ Hnodes)|].
  eexists _, _. eapply bind_Done_intro; [done|reflexivity].
Qed.

(** *** Failure of the render operator *)

Global Instance fail_compositional `{Platform} : Compositional fail_spec.
Proof. split; simpl; auto. Qed.


(** ** Faults *)






(** ** Reruns *)

(** What a run that returns has rendered and left on disk. *)
Lemma script_rendered `{Platform} h u h' evs :
  script h = Done u h' evs ->
  exists refs nodes,
    collections h !! NODE_COLLECTION = Some refs /\
    nodes_of (objects h) refs = Some nodes /\
    rendered evs = marker_major (filepath h) nodes /\
    dom (disk h') = dom (disk h) ∪ list_to_set (rendered evs).
Proof.
  intros Hrun.
  apply script_Done_inv in Hrun as (refs & nodes & h1 & e1 & Hc & Hn & Hrun & -> & ->).
  exists refs, nodes. split; [done|]. split; [done|].
  pose proof (render_node_angles_disk (scene_camera h) (filepath h) nodes h) as Hd.
  rewrite Hrun in Hd. simpl in Hd.
  apply render_node_angles_Done in Hrun as (vs & Hlen & ->).
  rewrite rendered_app, app_nil_r. simpl.
  split; [by apply rendered_driver_trace|done].
Qed.

(** C8: two runs that return, on hosts with the same FPV_nodes collection,
    the same object names and the same base output directory (whatever is
    on their disks), render to the same paths in the same order; each run
    writes every one of its paths, and when the files of the first run are
    on disk as the second starts, the second adds no file. *)
Theorem rerun_renders_same_paths `{Platform} (h g : Host)
    (u1 u2 : unit) (h' g' : Host) (e1 e2 : list Event) :
  collections g !! NODE_COLLECTION = collections h !! NODE_COLLECTION ->
  name <$> objects g = name <$> objects h ->
  filepath g = filepath h ->
  script h = Done u1 h' e1 ->
  script g = Done u2 g' e2 ->
  rendered e2 = rendered e1 /\
  dom (disk g') = dom (disk g) ∪ list_to_set (rendered e2) /\
  (dom (disk h') ⊆ dom (disk g) -> dom (disk g') = dom (disk g)).
Proof.
  intros Hcoll Hnames Hpath Hrun1 Hrun2.
  apply script_rendered in Hrun1 as (refs1 & nodes1 & Hc1 & Hn1 & Hr1 & Hd1).
  apply script_rendered in Hrun2 as (refs2 & nodes2 & Hc2 & Hn2 & Hr2 & Hd2).
  assert (refs2 = refs1) as -> by congruence.
  assert (nodes2 = nodes1) as ->.
  { rewrite (nodes_of_ext (objects g) (objects h)) in Hn2; [congruence|].
    intros i. by rewrite <-!lookup_fmap, Hnames. }
  assert (Hsame : rendered e2 = rendered e1) by congruence.
  split; [done|]. split; [done|].
  intros Hsub. rewrite Hd2, Hsame. rewrite Hd1 in Hsub. set_solver.
Qed.

(** Run twice in a row: the second run finds the scene and the base
    directory as the first did, renders to the same paths and adds no file. *)
Lemma second_run_same_paths `{Platform} h u1 h1 e1 u2 h2 e2 :
  script h = Done u1 h1 e1 -> script h1 = Done u2 h2 e2 ->
  rendered e2 = rendered e1 /\ dom (disk h2) = dom (disk h1).
Proof.
  intros Hrun1 Hrun2.
  pose proof (script_frame h) as (Hc & _ & _ & Hn). rewrite Hrun1 in Hc, Hn. simpl in *.
  assert (Hp : filepath h1 = filepath h).
  { by apply script_Done_inv in Hrun1 as (? & ? & ? & ? & _ & _ & _ & -> & _). }
  apply script_rendered in Hrun1 as (refs1 & nodes1 & Hc1 & Hn1 & Hr1 & Hd1).
  apply script_rendered in Hrun2 as (refs2 & nodes2 & Hc2 & Hn2 & Hr2 & Hd2).
  rewrite Hc in Hc2. assert (refs2 = refs1) as -> by congruence.
  rewrite (nodes_of_ext (objects h1) (objects h)) in Hn2 by done.
  assert (nodes2 = nodes1) as -> by congruence.
  assert (Hsame : rendered e2 = rendered e1) by congruence.
  split; [done|]. rewrite Hd2, Hsame, Hd1. set_solver.
Qed.

(** ** The markers *)

(** C9, as the code has it.  In every run, whether it returns or aborts:
    the enumeration changes nothing on the host and makes no host call;
    the collections, the set of objects and every object's name are after
    the run what they were before; and no object other than the active
    camera is changed, the camera being the only object written.  The
    enumeration, when it returns, has yielded one entry per object of
    FPV_nodes, in the host's order, carrying the object's name; and when
    the active camera is not itself in FPV_nodes, every marker is after
    the run what it was before. *)
Theorem markers_kept_when_camera_is_no_marker `{Platform} (h : Host) :
  (final_host (get_node_locations h) = h /\ events (get_node_locations h) = []) /\
  collections (final_host (script h)) = collections h /\
  dom (objects (final_host (script h))) = dom (objects h) /\
  (forall i, name <$> objects (final_host (script h)) !! i = name <$> objects h !! i) /\
  (forall i, scene_camera h <> Some i ->
             objects (final_host (script h)) !! i = objects h !! i) /\
  (forall nodes h1 e1,
     get_node_locations h = Done nodes h1 e1 ->
     collections h !! NODE_COLLECTION = Some (map loc nodes) /\
     forall (j : nat) d, nodes !! j = Some d ->
                         name <$> objects h !! loc d = Some (node d)) /\
  (forall refs,
     collections h !! NODE_COLLECTION = Some refs ->
     (forall c, scene_camera h = Some c -> c ∉ refs) ->
     forall i, i ∈ refs -> objects (final_host (script h)) !! i = objects h !! i).
Proof.
  pose proof (script_frame h) as (Hcoll & _ & Hobj & Hname).
  split.
  { rewrite get_node_locations_eq.
    destruct (collections h !! NODE_COLLECTION) as [refs|]; [|done].
    by destruct (nodes_of (objects h) refs). }
  split; [done|]. split.
  { apply set_eq. intros i. rewrite !elem_of_dom.
    rewrite <-(fmap_is_Some name), Hname. apply fmap_is_Some. }
  split; [done|]. split; [done|]. split.
  - intros nodes h1 e1 Hrun. rewrite get_node_locations_eq in Hrun.
    destruct (collections h !! NODE_COLLECTION) as [refs|]; [|done].
    destruct (nodes_of (objects h) refs) as [ns|] eqn:Hn; [|done].
    injection Hrun as <- _ _.
    split; [by rewrite (nodes_of_loc _ _ _ Hn)|].
    intros j d. by eapply nodes_of_name.
  - intros refs Hc Hcam i Hi. apply Hobj. intros Hci. by apply (Hcam i).
Qed.

(** ** The theorems at work on the sample hosts *)

Lemma render_node_angles_marker_major_sample :
  rendered (events Sample.driven)
  = ["/tmp/out/node1__angle_0.png"; "/tmp/out/node1__angle_45.png";
     "/tmp/out/node1__angle_90.png"; "/tmp/out/node1__angle_135.png";
     "/tmp/out/node1__angle_180.png"; "/tmp/out/node1__angle_225.png";
     "/tmp/out/node1__angle_270.png"; "/tmp/out/node1__angle_315.png";
     "/tmp/out/node2__angle_0.png"; "/tmp/out/node2__angle_45.png";
     "/tmp/out/node2__angle_90.png"; "/tmp/out/node2__angle_135.png";
     "/tmp/out/node2__angle_180.png"; "/tmp/out/node2__angle_225.png";
     "/tmp/out/node2__angle_270.png"; "/tmp/out/node2__angle_315.png"] /\
  length (rendered (events Sample.driven)) = 16%nat.
Proof.
  destruct (render_node_angles_marker_major (H := Sample.steady)
              (Some 0%nat) "/tmp/out" Sample.markers Sample.two_nodes tt
              (final_host Sample.driven) (events Sample.driven))
    as (Hr & _ & Hl & _).
  - vm_compute. reflexivity.
  - split; [exact Hr|exact Hl].
Defined.

Lemma camera_written_once_per_marker_and_pair_sample :
  length (locations_set (events Sample.driven)) = 2%nat /\
  length (rotations_set (events Sample.driven))
  = length (rendered (events Sample.driven)).
Proof.
  destruct (camera_written_once_per_marker_and_pair (H := Sample.steady)
              (Some 0%nat) "/tmp/out" Sample.markers Sample.two_nodes tt
              (final_host Sample.driven) (events Sample.driven))
    as (_ & Hl & _ & Hr).
  - vm_compute. reflexivity.
  - split; [exact Hl|exact Hr].
Defined.

Lemma output_path_is_base_joined_with_filename_sample :
  paths_set (events Sample.driven) !! 9%nat = Some "/tmp/out/node2__angle_45.png".
Proof.
  destruct (output_path_is_base_joined_with_filename (H := Sample.steady)
              (Some 0%nat) "/tmp/out" Sample.markers Sample.two_nodes tt
              (final_host Sample.driven) (events Sample.driven))
    as (_ & _ & Hp).
  - vm_compute. reflexivity.
  - exact (Hp 1%nat 1%nat (mkNode "node2" 2%nat)
              (45, mkEuler (math.radians 90) (math.radians 0) (math.radians (-45)))
              eq_refl eq_refl).
Defined.

Lemma output_path_restored_sample :
  filepath (final_host Sample.first_run) = "/tmp/out".
Proof.
  refine (proj1 (output_path_restored (H := Sample.steady) Sample.two_nodes tt
                   (final_host Sample.first_run) (events Sample.first_run) _)).
  vm_compute. reflexivity.
Defined.

Lemma missing_collection_aborts_sample :
  @script Sample.steady Sample.no_collection
  = Abort (KeyError "FPV_nodes") Sample.no_collection [].
Proof.
  apply (missing_collection_aborts (H := Sample.steady) Sample.no_collection).
  vm_compute. reflexivity.
Defined.

Lemma empty_collection_run_sample :
  exists evs, @script Sample.steady Sample.no_nodes = Done tt Sample.no_nodes evs /\
              rendered evs = [] /\ locations_set evs = [] /\
              rotations_set evs = [] /\ paths_set evs = ["/tmp/out"].
Proof.
  apply (empty_collection_run (H := Sample.steady) Sample.no_nodes).
  vm_compute. reflexivity.
Defined.


Lemma rerun_renders_same_paths_sample :
  rendered (events Sample.second_run) = rendered (events Sample.first_run) /\
  dom (disk (final_host Sample.second_run)) = dom (disk (final_host Sample.first_run)).
Proof.
  destruct (rerun_renders_same_paths (H := Sample.steady)
              Sample.two_nodes (final_host Sample.first_run) tt tt
              (final_host Sample.first_run) (final_host Sample.second_run)
              (events Sample.first_run) (events Sample.second_run))
    as (Hr & _ & Hd).
  - vm_compute. reflexivity.
  - vm_compute. reflexivity.
  - vm_compute. reflexivity.
  - vm_compute. reflexivity.
  - vm_compute. reflexivity.
  - split; [exact Hr|]. apply Hd. reflexivity.
Defined.

Lemma markers_kept_when_camera_is_no_marker_sample :
  objects (final_host Sample.first_run) !! 1%nat = Some Sample.node1 /\
  objects (final_host Sample.first_run) !! 2%nat = Some Sample.node2.
Proof.
  destruct (markers_kept_when_camera_is_no_marker (H := Sample.steady)
              Sample.two_nodes) as (_ & _ & _ & _ & _ & _ & Hkeep).
  specialize (Hkeep [1%nat; 2%nat]). split.
  - apply Hkeep; [vm_compute; reflexivity|intros c [= <-]; set_solver|set_solver].
  - apply Hkeep; [vm_compute; reflexivity|intros c [= <-]; set_solver|set_solver].
Defined.

(** C9, as stated, fails: with the active camera linked into FPV_nodes the
    run returns, and the camera, which is one of the markers, has been moved
    from (7, -7, 2) to node2's place (5, 0, 0). *)
Lemma camera_marker_is_moved :
  collections Sample.camera_among_nodes !! NODE_COLLECTION = Some [0%nat; 2%nat] /\
  scene_camera Sample.camera_among_nodes = Some 0%nat /\
  (exists h' evs, Sample.camera_run = Done tt h' evs /\
     location <$> objects Sample.camera_among_nodes !! 0%nat
     = Some (Sample.at_xyz 7 (-7) 2) /\
     location <$> objects h' !! 0%nat = Some (Sample.at_xyz 5 0 0)) /\
  Sample.at_xyz 7 (-7) 2 <> Sample.at_xyz 5 0 0.
Proof.
  split; [reflexivity|]. split; [reflexivity|]. split.
  - exists (final_host Sample.camera_run), (events Sample.camera_run).
    split; [|split]; vm_compute; reflexivity.
  - intros Heq. apply (f_equal vx) in Heq.
    apply (f_equal (fun x => PrimFloat.eqb x (math.float_of_int 5))) in Heq.
    vm_compute in Heq. discriminate.
Qed.


(** * Further properties of the script *)

(** ** When the run returns, and when it cannot start *)

Lemma script_returns_sample :
  exists h' evs, @script Sample.steady Sample.two_nodes = Done tt h' evs.
Proof.
  apply (script_returns (H := Sample.steady) Sample.two_nodes [1%nat; 2%nat]).
  - intros g. by eexists.
  - vm_compute. reflexivity.
  - split.
    + exists 0%nat. split; [reflexivity|]. by eexists.
    + repeat constructor; by eexists.
Defined.

(** Without an active camera a run over a non-empty collection aborts on
    the first write of the camera's position, with the fault of an
    attribute of None: no host call has been made, nothing is rendered and
    the host is as it was. *)
Theorem no_camera_aborts `{Platform} (h : Host) (i : ObjRef) (refs : list ObjRef)
    (nodes : list Node) :
  scene_camera h = None ->
  collections h !! NODE_COLLECTION = Some (i :: refs) ->
  nodes_of (objects h) (i :: refs) = Some nodes ->
  script h = Abort AttributeError h [].
Proof.
  intros Hcam Hc Hn. rewrite script_eq, Hc, Hn, Hcam.
  simpl in Hn. destruct (objects h !! i) as [o|]; [|done].
  destruct (nodes_of (objects h) refs) as [ns|]; [|done].
  by injection Hn as <-.
Qed.

Lemma no_camera_aborts_sample :
  let h := mkHost Sample.scene_objects (collections Sample.two_nodes) None
                  "/tmp/out" ∅ in
  @script Sample.steady h = Abort AttributeError h [].
Proof.
  apply (no_camera_aborts (H := Sample.steady) _ 1%nat [2%nat] Sample.markers).
  - reflexivity.
  - vm_compute. reflexivity.
  - vm_compute. reflexivity.
Defined.

(** ** Where the camera is moved *)

(** In a run that returns, with the active camera outside FPV_nodes, the
    positions written to the camera are the positions of the collection's
    objects, one per object and in the collection's order. *)
Theorem camera_visits_markers_in_order `{Platform} (h : Host)
    (refs : list ObjRef) (u : unit) (h' : Host) (evs : list Event) :
  collections h !! NODE_COLLECTION = Some refs ->
  (forall c, scene_camera h = Some c -> c ∉ refs) ->
  script h = Done u h' evs ->
  Forall2 (fun i v => location <$> objects h !! i = Some v)
          refs (locations_set evs).
Proof.
  intros Hc Hcam Hrun.
  apply script_Done_inv in Hrun as (refs' & nodes & h1 & e1 & Hc' & Hn & Hrun & _ & ->).
  assert (refs' = refs) as -> by congruence.
  pose proof (nodes_of_loc _ _ _ Hn) as Hloc.
  rewrite locations_set_app, app_nil_r.
  eapply (locations_written_are_marker_positions _ _ nodes) in Hrun;
    [|by rewrite Hloc|done].
  rewrite <-Hloc. by apply Forall2_fmap_l.
Qed.

Lemma camera_visits_markers_in_order_sample :
  Forall2 (fun i v => location <$> objects Sample.two_nodes !! i = Some v)
          [1%nat; 2%nat] (locations_set (events Sample.first_run)).
Proof.
  apply (camera_visits_markers_in_order (H := Sample.steady)
           Sample.two_nodes [1%nat; 2%nat] tt
           (final_host Sample.first_run) (events Sample.first_run)).
  - vm_compute. reflexivity.
  - intros c [= <-]. set_solver.
  - vm_compute. reflexivity.
Defined.

(** ** What the driver has done when it stops *)

Section Traces_to.

Context {B : Type} (f : list Event -> list B).
Hypothesis f_nil : f [] = [].
Hypothesis f_app : forall e1 e2, f (e1 ++ e2) = f e1 ++ f e2.

Lemma traces_to_bind {A C} l1 l2 (m : Script A) (k : A -> Script C) :
  traces_to f l1 m -> (forall a, traces_to f l2 (k a)) ->
  traces_to f (l1 ++ l2) (m ≫= k).
Proof.
  intros Hm Hk h. unfold mbind, script_bind, bind.
  specialize (Hm h). destruct (m h) as [a h1 e1|e h1 e1].
  - specialize (Hk a h1). destruct (k a h1) as [b h2 e2|e h2 e2].
    + by rewrite f_app, Hm, Hk.
    + rewrite f_app, Hm. by apply prefix_app.
  - by apply prefix_app_r.
Qed.

Lemma traces_to_for_each {A} (g : A -> list B) xs (body : A -> Script unit) :
  (forall x, x ∈ xs -> traces_to f (g x) (body x)) ->
  traces_to f (flat_map g xs) (for_each xs body).
Proof.
  induction xs as [|x xs IH]; intros Hb.
  - intros h. simpl. apply f_nil.
  - simpl. apply traces_to_bind.
    + apply Hb. by left.
    + intros _. apply IH. intros y Hy. apply Hb. by right.
Qed.

End Traces_to.

Lemma flat_map_singleton {A B} (g : A -> B) (l : list A) :
  flat_map (fun x => [g x]) l = map g l.
Proof. induction l as [|x l IH]; [done|]. simpl. by rewrite IH. Qed.

Section Driver_stops.

Context `{Platform}.
Variable CAMERA : option ObjRef.
Variable OUTPUT_DIR : string.

Lemma set_location_traces_to {B} (f : list Event -> list B) src :
  f [] = [] -> (forall v, f [SetLocation v] = []) ->
  traces_to f [] (bpy.set_location CAMERA src).
Proof.
  intros Hnil Hloc h. unfold bpy.set_location. destruct CAMERA as [c|]; simpl.
  - unfold mbind, script_bind, bind, bpy.read_location, bpy.write_location.
    destruct (objects h !! src) as [o|]; [|by rewrite Hnil].
    destruct (objects h !! c) as [oc|]; simpl; [done|by rewrite Hnil].
  - by rewrite Hnil.
Qed.

Lemma render_angle_rendered node_name kv :
  traces_to rendered [Path OUTPUT_DIR (output_file node_name kv.1)]
            (render_angle CAMERA OUTPUT_DIR node_name kv).
Proof.
  destruct kv as [k v]. intros h. unfold render_angle, bpy.set_rotation_euler.
  destruct CAMERA as [c|]; [|apply prefix_nil].
  unfold mbind, script_bind, bind, bpy.write_rotation, bpy.set_filepath, bpy.render.
  destruct (objects h !! c) as [oc|]; [|apply prefix_nil]. simpl.
  by destruct (render_engine _).
Qed.

Lemma render_angle_paths_set node_name kv :
  traces_to paths_set [Path OUTPUT_DIR (output_file node_name kv.1)]
            (render_angle CAMERA OUTPUT_DIR node_name kv).
Proof.
  destruct kv as [k v]. intros h. unfold render_angle, bpy.set_rotation_euler.
  destruct CAMERA as [c|]; [|apply prefix_nil].
  unfold mbind, script_bind, bind, bpy.write_rotation, bpy.set_filepath, bpy.render.
  destruct (objects h !! c) as [oc|]; [|apply prefix_nil]. simpl.
  by destruct (render_engine _).
Qed.

Lemma render_node_angles_traces_to (f : list Event -> list string) nodes :
  f [] = [] -> (forall e1 e2, f (e1 ++ e2) = f e1 ++ f e2) ->
  (forall v, f [SetLocation v] = []) ->
  (forall node_name kv,
     traces_to f [Path OUTPUT_DIR (output_file node_name kv.1)]
               (render_angle CAMERA OUTPUT_DIR node_name kv)) ->
  traces_to f (marker_major OUTPUT_DIR nodes)
            (render_node_angles CAMERA OUTPUT_DIR nodes).
Proof.
  intros Hnil Happ Hloc Hangle.
  apply traces_to_for_each; [done..|]. intros d _. unfold render_node.
  apply (traces_to_bind f Happ [] (node_paths OUTPUT_DIR d)).
  - by apply set_location_traces_to.
  - intros _. unfold node_paths.
    rewrite <-flat_map_singleton.
    apply traces_to_for_each; [done..|]. intros kv _. apply Hangle.
Qed.

End Driver_stops.

(** Whatever the outcome of the driver (return or fault, at any point), the
    render invocations it has made, and the output paths it has set, are an
    initial part of the marker-major list of paths: no pair is skipped, none
    is served out of order or twice, no other path is used. *)
Theorem driver_stops_on_a_prefix `{Platform} (cam : option ObjRef) (dir : string)
    (nodes : list Node) (h : Host) :
  rendered (events (render_node_angles cam dir nodes h))
    `prefix_of` marker_major dir nodes /\
  paths_set (events (render_node_angles cam dir nodes h))
    `prefix_of` marker_major dir nodes.
Proof.
  pose proof (render_node_angles_traces_to cam dir rendered nodes eq_refl
                rendered_app (fun _ => eq_refl)
                (render_angle_rendered cam dir) h) as Hr.
  pose proof (render_node_angles_traces_to cam dir paths_set nodes eq_refl
                paths_set_app (fun _ => eq_refl)
                (render_angle_paths_set cam dir) h) as Hp.
  destruct (render_node_angles cam dir nodes h) as [a h' evs|e h' evs]; simpl.
  - by rewrite Hr, Hp.
  - done.
Qed.

(** ** What the driver leaves behind *)

Lemma or_last_nil {A} (x : option A) : or_last [] x = x.
Proof. done. Qed.

Lemma or_last_app {A} (l1 l2 : list A) x :
  or_last (l1 ++ l2) x = or_last l2 (or_last l1 x).
Proof. unfold or_last. rewrite last_app. by destruct (last l2). Qed.

Lemma or_last_snoc {A} (l : list A) y x : or_last (l ++ [y]) x = Some y.
Proof. unfold or_last. by rewrite last_snoc. Qed.

(** *** The output-path setting *)

Global Instance latest_path_compositional : Compositional latest_path_spec.
Proof.
  split; unfold latest_path_spec, latest_path; simpl.
  - done.
  - intros h h1 h2 e1 e2 H1 H2. by rewrite paths_set_app, or_last_app, <-H1.
  - intros _ h h1 h2 e1 e2 H1 H2. by rewrite paths_set_app, or_last_app, <-H1.
Qed.

Lemma render_node_angles_latest_path `{Platform} cam dir nodes :
  meets latest_path_spec (render_node_angles cam dir nodes).
Proof.
  apply render_node_angles_meets; [apply _| |].
  - intros d _ h. unfold bpy.set_location. destruct cam as [c|]; [|done].
    unfold mbind, script_bind, bind, bpy.read_location, bpy.write_location.
    destruct (objects h !! loc d); [|done]. by destruct (objects h !! c).
  - intros d kv _ _. apply render_angle_meets; [apply _|..].
    + intros h. unfold bpy.set_rotation_euler. destruct cam as [c|]; [|done].
      unfold bpy.write_rotation. by destruct (objects h !! c).
    + by intros h.
    + intros h. unfold bpy.render. by destruct (render_engine h).
Qed.

Lemma marker_major_snoc `{Platform} dir pre d :
  marker_major dir (pre ++ [d]) = marker_major dir pre ++ node_paths dir d.
Proof.
  unfold marker_major. rewrite flat_map_app. cbn [flat_map]. by rewrite app_nil_r.
Qed.

(** The driver by itself leaves the output-path setting at the path of the
    last pair rendered, the last marker's at heading 315 (and untouched when
    there is no marker): this is what [run] undoes at its end.  It is said
    of runs whose paths the host keeps whole. *)
Theorem driver_leaves_last_path `{Platform} (cam : option ObjRef) (dir : string)
    (nodes : list Node) (h : Host) (u : unit) (h' : Host) (evs : list Event) :
  render_node_angles cam dir nodes h = Done u h' evs ->
  Forall bpy.storable (paths_set evs) ->
  (nodes = [] -> filepath h' = filepath h) /\
  (forall pre d, nodes = pre ++ [d] ->
                 filepath h' = Path dir (output_file (node d) 315)).
Proof.
  intros Hrun _.
  pose proof (render_node_angles_latest_path cam dir nodes h) as Hlast.
  rewrite Hrun in Hlast. simpl in Hlast. unfold latest_path in Hlast.
  apply render_node_angles_Done in Hrun as (vs & Hlen & ->).
  rewrite paths_set_driver_trace in Hlast by done. split.
  - intros ->. by injection Hlast.
  - intros pre d ->. rewrite marker_major_snoc in Hlast.
    unfold or_last in Hlast. rewrite last_app in Hlast. by injection Hlast.
Qed.

Lemma driver_leaves_last_path_sample :
  filepath (final_host Sample.driven) = "/tmp/out/node2__angle_315.png".
Proof.
  refine (proj2 (driver_leaves_last_path (H := Sample.steady) (Some 0%nat)
                   "/tmp/out" Sample.markers Sample.two_nodes tt
                   (final_host Sample.driven) (events Sample.driven) _ _)
                [mkNode "node1" 1%nat] (mkNode "node2" 2%nat) eq_refl).
  - vm_compute. reflexivity.
  - apply (bool_decide_unpack _). by vm_compute.
Defined.

(** *** The camera *)

Global Instance camera_compositional c : Compositional (camera_spec c).
Proof.
  split; unfold camera_spec, latest_pose; simpl.
  - done.
  - intros h h1 h2 e1 e2 [Hl1 Hr1] [Hl2 Hr2].
    by rewrite locations_set_app, rotations_set_app, fmap_app, !or_last_app,
      <-Hl1, <-Hr1.
  - intros _ h h1 h2 e1 e2 [Hl1 Hr1] [Hl2 Hr2].
    by rewrite locations_set_app, rotations_set_app, fmap_app, !or_last_app,
      <-Hl1, <-Hr1.
Qed.

Lemma render_node_angles_camera `{Platform} c dir nodes :
  meets (camera_spec c) (render_node_angles (Some c) dir nodes).
Proof.
  apply render_node_angles_meets; [apply _| |].
  - intros d _ h. unfold bpy.set_location.
    unfold mbind, script_bind, bind, bpy.read_location, bpy.write_location.
    destruct (objects h !! loc d); [|done].
    destruct (objects h !! c) as [oc|] eqn:Hoc; [|done].
    split; simpl; by rewrite lookup_insert_eq, ?Hoc.
  - intros d kv _ _. apply render_angle_meets; [apply _|..].
    + intros h. unfold bpy.set_rotation_euler, bpy.write_rotation.
      destruct (objects h !! c) as [oc|] eqn:Hoc; [|done].
      split; simpl; by rewrite lookup_insert_eq, ?Hoc.
    + by intros h.
    + intros h. unfold bpy.render. by destruct (render_engine h).
Qed.

Lemma rotations_set_driver_trace `{Platform} dir nodes vs :
  length vs = length nodes ->
  rotations_set (flat_map (fun dv => node_events dir dv.1 dv.2) (zip nodes vs))
  = flat_map (fun _ => map snd ROTATION_ANGLES) nodes.
Proof.
  intros Hlen.
  rewrite (project_nodes dir rotations_set (fun _ _ => map snd ROTATION_ANGLES));
    [by apply (flat_map_zip_l (fun _ => map snd ROTATION_ANGLES))|done
    |apply rotations_set_app|apply rotations_set_node].
Qed.

(** A run that returns does not put the camera back: with the active camera
    outside FPV_nodes, it is left at the position of the last object of the
    collection, turned to the table's last entry (heading 315) as the host
    stores it, that is rounded to single precision. *)
Theorem camera_left_at_last_marker `{Platform} (h : Host) (pre : list ObjRef)
    (i c : ObjRef) (om : Object) (u : unit) (h' : Host) (evs : list Event) :
  collections h !! NODE_COLLECTION = Some (pre ++ [i]) ->
  scene_camera h = Some c ->
  c ∉ pre ++ [i] ->
  objects h !! i = Some om ->
  script h = Done u h' evs ->
  location <$> objects h' !! c = Some (location om) /\
  rotation_euler <$> objects h' !! c
  = Some (bpy.single_euler
            (mkEuler (math.radians 90) (math.radians 0) (math.radians (-315)))).
Proof.
  intros Hc Hcam Hout Hom Hrun.
  apply script_Done_inv in Hrun as (refs & nodes & h1 & e1 & Hc' & Hn & Hrun & -> & _).
  assert (refs = pre ++ [i]) as -> by congruence. simpl.
  pose proof (nodes_of_loc _ _ _ Hn) as Hloc. rewrite Hcam in Hrun.
  pose proof (render_node_angles_camera c (filepath h) nodes h) as Hpose.
  rewrite Hrun in Hpose. destruct Hpose as [Hl Hr].
  pose proof Hrun as Hvs.
  eapply (locations_written_are_marker_positions _ _ nodes) in Hvs;
    [|intros ? [= <-]; by rewrite Hloc|done].
  apply fmap_app_inv in Hloc as (npre & nlast & Hpre & Hlast & ->).
  destruct nlast as [|d [|]]; try done. injection Hlast as Hd.
  apply render_node_angles_Done in Hrun as (vs & Hlen & ->).
  rewrite rotations_set_driver_trace in Hr by done.
  apply Forall2_app_inv_l in Hvs as (vs1 & vs2 & _ & Hv2 & Hvs).
  apply Forall2_cons_inv_l in Hv2 as (v & vs2' & Hv & Hnil & ->).
  apply Forall2_nil_inv_l in Hnil as ->.
  rewrite <-Hd, Hom in Hv. injection Hv as <-.
  split.
  - by rewrite Hl, Hvs, or_last_snoc.
  - rewrite Hr, flat_map_app, fmap_app. unfold or_last. by rewrite last_app.
Qed.

(** The table's first and last turns as the host holds them. *)
Lemma single_radians_sample :
  bpy.single (math.radians 90) = 0x1.921fb6p+0%float /\
  bpy.single (math.radians (-315)) = (-0x1.5fdbbep+2)%float /\
  bpy.single (math.radians 0) = math.radians 0.
Proof. by vm_compute. Qed.

Lemma camera_left_at_last_marker_sample :
  location <$> objects (final_host Sample.first_run) !! 0%nat
  = Some (location Sample.node2) /\
  rotation_euler <$> objects (final_host Sample.first_run) !! 0%nat
  = Some (bpy.single_euler
            (mkEuler (math.radians 90) (math.radians 0) (math.radians (-315)))).
Proof.
  apply (camera_left_at_last_marker (H := Sample.steady) Sample.two_nodes
           [1%nat] 2%nat 0%nat Sample.node2 tt
           (final_host Sample.first_run) (events Sample.first_run)).
  - vm_compute. reflexivity.
  - reflexivity.
  - set_solver.
  - vm_compute. reflexivity.
  - vm_compute. reflexivity.
Defined.

(** *** The files *)

Global Instance files_compositional : Compositional files_spec.
Proof.
  split; unfold files_spec, other_files_kept; simpl.
  - done.
  - intros h h1 h2 e1 e2 H1 H2 p Hp. rewrite rendered_app in Hp.
    apply not_elem_of_app in Hp as [Hp1 Hp2]. by rewrite H2, H1.
  - intros _ h h1 h2 e1 e2 H1 H2 p Hp. rewrite rendered_app in Hp.
    apply not_elem_of_app in Hp as [Hp1 Hp2]. by rewrite H2, H1.
Qed.

Lemma render_node_angles_files `{Platform} cam dir nodes :
  meets files_spec (render_node_angles cam dir nodes).
Proof.
  apply render_node_angles_meets; [apply _| |].
  - intros d _ h. unfold bpy.set_location. destruct cam as [c|]; [|done].
    unfold mbind, script_bind, bind, bpy.read_location, bpy.write_location.
    destruct (objects h !! loc d); [|done]. by destruct (objects h !! c).
  - intros d kv _ _. apply render_angle_meets; [apply _|..].
    + intros h. unfold bpy.set_rotation_euler. destruct cam as [c|]; [|done].
      unfold bpy.write_rotation. by destruct (objects h !! c).
    + by intros h.
    + intros h. unfold bpy.render. destruct (render_engine h); [|done].
      intros p Hp. simpl in *. apply lookup_insert_ne. set_solver.
Qed.

(** Whatever its outcome, a run leaves every file alone whose path it has
    not invoked a render on: it deletes nothing and writes nowhere else. *)
Theorem run_keeps_other_files `{Platform} (h : Host) (p : string) :
  p ∉ rendered (events (script h)) ->
  disk (final_host (script h)) !! p = disk h !! p.
Proof.
  rewrite script_eq.
  destruct (collections h !! NODE_COLLECTION) as [objs|]; [|done].
  destruct (nodes_of (objects h) objs) as [nodes|]; [|done].
  match goal with |- context [?m h] =>
    assert (Hm : meets files_spec m);
    [|specialize (Hm h); destruct (m h); intros Hp; by apply Hm]
  end.
  apply meets_bind; [apply _|apply render_node_angles_files|].
  by intros _ g.
Qed.

Lemma run_keeps_other_files_sample :
  disk (final_host (@script Sample.steady
          (bpy.write_file "/tmp/out/notes.txt" Sample.blank Sample.two_nodes)))
    !! "/tmp/out/notes.txt"
  = Some Sample.blank.
Proof.
  apply (run_keeps_other_files (H := Sample.steady)
           (bpy.write_file "/tmp/out/notes.txt" Sample.blank Sample.two_nodes)
           "/tmp/out/notes.txt").
  vm_compute. intros Hin. 
  repeat (apply elem_of_cons in Hin as [Hin|Hin]; [discriminate Hin|]).
  by apply elem_of_nil in Hin.
Defined.

(** ** File names *)

Lemma append_String a (s t : string) : String a s +:+ t = String a (s +:+ t).
Proof. reflexivity. Qed.

Lemma append_assoc (s1 s2 s3 : string) : (s1 +:+ s2) +:+ s3 = s1 +:+ (s2 +:+ s3).
Proof. induction s1 as [|a s1 IH]; [done|]. by rewrite !append_String, IH. Qed.

Lemma lacks_app c s1 s2 : lacks c (s1 +:+ s2) = lacks c s1 && lacks c s2.
Proof.
  induction s1 as [|a s1 IH]; [done|]. rewrite append_String. simpl.
  by destruct (decide (a = c)).
Qed.

Lemma lacks_String_eq c s : lacks c (String c s) = false.
Proof. simpl. by destruct (decide (c = c)). Qed.

(** A string is cut in one way only at the last occurrence of a character. *)
Lemma split_at_last_unique c l1 l2 r1 r2 :
  lacks c r1 = true -> lacks c r2 = true ->
  l1 +:+ String c r1 = l2 +:+ String c r2 -> l1 = l2 /\ r1 = r2.
Proof.
  intros Hr1 Hr2. revert l2.
  induction l1 as [|a l1 IH]; intros [|b l2]; rewrite ?append_String;
    change ("" +:+ ?s) with s; intros Heq.
  - by injection Heq.
  - injection Heq as <- ->.
    by rewrite lacks_app, lacks_String_eq, andb_false_r in Hr1.
  - injection Heq as -> <-.
    by rewrite lacks_app, lacks_String_eq, andb_false_r in Hr2.
  - injection Heq as -> Heq. destruct (IH _ Heq) as [-> ->]. done.
Qed.

Lemma pretty_N_go_lacks c x s :
  (forall d, pretty_N_char d <> c) -> lacks c s = true ->
  lacks c (pretty_N_go x s) = true.
Proof.
  intros Hdigit. revert s.
  induction (N.lt_wf_0 x) as [x _ IH]; intros s Hs.
  assert (x = 0 \/ 0 < x)%N as [->|Hpos] by lia; [by rewrite pretty_N_go_0|].
  rewrite pretty_N_go_step by done. apply IH; [by apply N.div_lt|].
  simpl. destruct (decide (pretty_N_char (x `mod` 10) = c)) as [Heq|]; [|done].
  by destruct (Hdigit _ Heq).
Qed.

(** The decimal form of an integer holds digits and a sign only. *)
Lemma pretty_Z_lacks c (k : Z) :
  (forall d, pretty_N_char d <> c) -> c <> "-"%char -> lacks c (pretty k) = true.
Proof.
  intros Hdigit Hdash.
  assert (Hzero : lacks c "0" = true).
  { simpl. destruct (decide ("0"%char = c)) as [Heq|]; [|done].
    by destruct (Hdigit 0%N Heq). }
  destruct k as [|p|p]; unfold pretty, pretty_Z; [done| |].
  - unfold pretty, pretty_positive, pretty, pretty_N.
    destruct (decide (N.pos p = 0%N)); [done|]. by apply pretty_N_go_lacks.
  - change ("-" +:+ ?s) with (String "-" s). simpl.
    destruct (decide ("-"%char = c)) as [Heq|]; [by destruct Hdash|].
    unfold pretty, pretty_positive, pretty, pretty_N.
    destruct (decide (N.pos p = 0%N)); [done|]. by apply pretty_N_go_lacks.
Qed.

Lemma digit_not_underscore d : pretty_N_char d <> "_"%char.
Proof. unfold pretty_N_char. by repeat case_match. Qed.

Lemma digit_not_dot d : pretty_N_char d <> "."%char.
Proof. unfold pretty_N_char. by repeat case_match. Qed.

(** The file name tells the marker's name and the heading: two pairs that
    get the same file name are the same pair, whatever characters the
    marker names hold. *)
Theorem output_file_inj (n1 n2 : string) (k1 k2 : Z) :
  output_file n1 k1 = output_file n2 k2 -> n1 = n2 /\ k1 = k2.
Proof.
  intros Heq.
  change (n1 +:+ ("__angle" +:+ String "_" (pretty k1 +:+ ".png"))
          = n2 +:+ ("__angle" +:+ String "_" (pretty k2 +:+ ".png"))) in Heq.
  rewrite <-!append_assoc in Heq.
  apply split_at_last_unique in Heq as [Hl Hr].
  - split.
    + change (n1 +:+ ("_" +:+ String "_" "angle")
              = n2 +:+ ("_" +:+ String "_" "angle")) in Hl.
      rewrite <-!append_assoc in Hl.
      apply split_at_last_unique in Hl as [Hl _]; [|done..].
      by apply (split_at_last_unique "_" n1 n2 "" "") in Hl as [-> _].
    + change (pretty k1 +:+ String "." "png" = pretty k2 +:+ String "." "png") in Hr.
      apply split_at_last_unique in Hr as [Hr _]; [|done..].
      by apply (inj pretty) in Hr.
  - rewrite lacks_app, pretty_Z_lacks; [done|apply digit_not_underscore|done].
  - rewrite lacks_app, pretty_Z_lacks; [done|apply digit_not_underscore|done].
Qed.

Lemma output_file_inj_sample :
  "node__angle_1" = "node__angle_1" /\ 45 = 45.
Proof.
  apply (output_file_inj "node__angle_1" "node__angle_1" 45 45). reflexivity.
Defined.

Lemma marker_major_file_names `{Platform} dir nodes :
  marker_major dir nodes = map (Path dir) (file_names nodes).
Proof.
  unfold marker_major, file_names, node_paths.
  induction nodes as [|d nodes IH]; [done|].
  cbn [flat_map]. by rewrite map_app, map_map, IH.
Qed.

Lemma headings_NoDup : NoDup (map fst ROTATION_ANGLES).
Proof. apply (bool_decide_unpack _). by vm_compute. Qed.

Lemma file_names_NoDup nodes :
  NoDup (map node nodes) -> NoDup (file_names nodes).
Proof.
  unfold file_names. induction nodes as [|d nodes IH]; intros Hnames.
  - constructor.
  - change (NoDup (node d :: map node nodes)) in Hnames.
    apply NoDup_cons in Hnames as [Hd Hnames]. cbn [flat_map].
    apply NoDup_app. split; [|split].
    + rewrite <-(map_map fst (output_file (node d))).
      apply NoDup_fmap_2_strong; [|apply headings_NoDup].
      intros k1 k2 _ _ Hk. by apply output_file_inj in Hk as [_ ->].
    + intros f Hf Hf'. apply list_elem_of_In, in_map_iff in Hf as (kv & <- & _).
      apply list_elem_of_In, in_flat_map in Hf' as (d' & Hd' & Hf').
      apply in_map_iff in Hf' as (kv' & Hf' & _).
      apply output_file_inj in Hf' as [Hname _].
      apply Hd. rewrite <-Hname. apply list_elem_of_In, in_map. done.
    + by apply IH.
Qed.

(** When the markers' names are pairwise distinct, joining with the base
    directory keeps the run's file names apart, and the host keeps the
    run's paths whole, a run that returns has rendered to pairwise distinct
    paths: no image of the run is overwritten by a later one of the same
    run. *)
Theorem distinct_names_distinct_paths `{Platform} (h : Host) (nodes : list Node)
    (h1 : Host) (e1 : list Event) (u : unit) (h' : Host) (evs : list Event) :
  get_node_locations h = Done nodes h1 e1 ->
  NoDup (map node nodes) ->
  (forall f1 f2, f1 ∈ file_names nodes -> f2 ∈ file_names nodes ->
                 Path (filepath h) f1 = Path (filepath h) f2 -> f1 = f2) ->
  script h = Done u h' evs ->
  Forall bpy.storable (paths_set evs) ->
  NoDup (rendered evs).
Proof.
  intros Hnodes Hnames Hjoin Hrun _.
  apply script_rendered in Hrun as (refs & nodes' & Hc & Hn & -> & _).
  rewrite get_node_locations_eq, Hc, Hn in Hnodes. injection Hnodes as -> _ _.
  rewrite marker_major_file_names.
  apply NoDup_fmap_2_strong; [|by apply file_names_NoDup].
  intros f1 f2 Hf1 Hf2. by apply Hjoin.
Qed.

Lemma distinct_names_distinct_paths_sample :
  NoDup (rendered (events Sample.first_run)).
Proof.
  apply (distinct_names_distinct_paths (H := Sample.steady) Sample.two_nodes
           Sample.markers Sample.two_nodes [] tt
           (final_host Sample.first_run) (events Sample.first_run)).
  - vm_compute. reflexivity.
  - apply (bool_decide_unpack _). by vm_compute.
  - intros f1 f2 _ _ Heq. by apply (inj (String.app _)), (inj (String.app _)) in Heq.
  - vm_compute. reflexivity.
  - apply (bool_decide_unpack _). by vm_compute.
Defined.

(** ** Running again *)

Lemma locations_set_driver_trace `{Platform} dir nodes vs :
  length vs = length nodes ->
  locations_set (flat_map (fun dv => node_events dir dv.1 dv.2) (zip nodes vs)) = vs.
Proof.
  intros Hlen.
  rewrite (project_nodes dir locations_set (fun _ v => [v]));
    [by apply flat_map_zip_r|done|apply locations_set_app|apply locations_set_node].
Qed.

Lemma Forall2_Some_functional {A V} (g : A -> option V) l vs1 vs2 :
  Forall2 (fun d v => g d = Some v) l vs1 ->
  Forall2 (fun d v => g d = Some v) l vs2 -> vs1 = vs2.
Proof.
  intros H1. revert vs2. induction H1 as [|d v l vs1 Hv _ IH]; intros vs2 H2.
  - by apply Forall2_nil_inv_l in H2.
  - apply Forall2_cons_inv_l in H2 as (v' & vs2' & Hv' & H2 & ->).
    f_equal; [congruence|by apply IH].
Qed.

Lemma object_eq_by_fields (a b : option Object) :
  name <$> a = name <$> b -> location <$> a = location <$> b ->
  rotation_euler <$> a = rotation_euler <$> b -> a = b.
Proof. destruct a as [[]|], b as [[]|]; simpl; intros; by simplify_eq. Qed.

(** With the active camera outside FPV_nodes, a second run on the host that
    a first run has left makes exactly the host calls of the first, in the
    same order, and leaves the scene (objects, collections, camera, output
    path) exactly as the first run left it. *)
Theorem rerun_repeats_host_calls `{Platform} (h : Host) (refs : list ObjRef)
    (u1 u2 : unit) (h1 h2 : Host) (e1 e2 : list Event) :
  collections h !! NODE_COLLECTION = Some refs ->
  (forall c, scene_camera h = Some c -> c ∉ refs) ->
  script h = Done u1 h1 e1 ->
  script h1 = Done u2 h2 e2 ->
  e2 = e1 /\ objects h2 = objects h1 /\ collections h2 = collections h1 /\
  scene_camera h2 = scene_camera h1 /\ filepath h2 = filepath h1.
Proof.
  intros Hc Hcam Hrun1 Hrun2.
  pose proof (script_frame h) as Hf1. rewrite Hrun1 in Hf1.
  destruct Hf1 as (Hcoll1 & Hcam1 & Hobj1 & Hname1). simpl in *.
  pose proof (script_frame h1) as Hf2. rewrite Hrun2 in Hf2.
  destruct Hf2 as (Hcoll2 & Hcam2 & Hobj2 & Hname2). simpl in *.
  apply script_Done_inv in Hrun1
    as (refs1 & nodes & d1 & t1 & Hc1 & Hn1 & Hdrv1 & Hh1 & ->).
  apply script_Done_inv in Hrun2
    as (refs2 & nodes2 & d2 & t2 & Hc2 & Hn2 & Hdrv2 & Hh2 & ->).
  assert (refs1 = refs) as -> by congruence.
  assert (refs2 = refs) as -> by congruence.
  rewrite (nodes_of_ext (objects h1) (objects h)) in Hn2 by done.
  assert (nodes2 = nodes) as -> by congruence.
  assert (Hpath : filepath h1 = filepath h) by by rewrite Hh1.
  rewrite Hpath, Hcam1 in Hdrv2.
  pose proof (nodes_of_loc _ _ _ Hn1) as Hloc.
  assert (Hout : forall c, scene_camera h = Some c -> c ∉ map loc nodes).
  { by rewrite Hloc. }
  pose proof (locations_written_are_marker_positions _ _ nodes Hout
                h h tt d1 t1 (fun _ _ => eq_refl) Hdrv1) as Hvs1.
  assert (Hsame : forall i, i ∈ map loc nodes -> objects h1 !! i = objects h !! i).
  { intros i Hi. apply Hobj1. intros Hci. by apply (Hout i). }
  pose proof (locations_written_are_marker_positions _ _ nodes Hout
                h h1 tt d2 t2 Hsame Hdrv2) as Hvs2.
  pose proof (Forall2_Some_functional _ _ _ _ Hvs1 Hvs2) as Hlocs.
  pose proof Hdrv1 as Ht1. pose proof Hdrv2 as Ht2.
  apply render_node_angles_Done in Ht1 as (vs1 & Hlen1 & Ht1).
  apply render_node_angles_Done in Ht2 as (vs2 & Hlen2 & Ht2).
  assert (vs2 = vs1) as Hvs.
  { rewrite <-(locations_set_driver_trace (filepath h) nodes vs2),
      <-(locations_set_driver_trace (filepath h) nodes vs1) by done.
    by rewrite <-Ht1, <-Ht2. }
  assert (Htrace : t2 = t1) by (by rewrite Ht1, Ht2, Hvs).
  split; [by rewrite Htrace, Hpath|].
  split; [|split; [done|split; [done|by rewrite Hh2]]].
  apply map_eq. intros i.
  destruct (decide (scene_camera h = Some i)) as [Hi|Hi];
    [|apply Hobj2; by rewrite Hcam1].
  apply object_eq_by_fields; [apply Hname2|..].
  - pose proof (render_node_angles_camera i (filepath h) nodes h) as Hp1.
    pose proof (render_node_angles_camera i (filepath h) nodes h1) as Hp2.
    rewrite <-Hi, Hdrv1 in Hp1. rewrite <-Hi, Hdrv2 in Hp2.
    destruct Hp1 as [Hp1 _], Hp2 as [Hp2 _].
    rewrite Htrace in Hp2. rewrite Hh2. simpl. rewrite Hp2.
    replace (objects h1) with (objects d1) by by rewrite Hh1.
    unfold or_last in *. by destruct (last (locations_set t1)).
  - pose proof (render_node_angles_camera i (filepath h) nodes h) as Hp1.
    pose proof (render_node_angles_camera i (filepath h) nodes h1) as Hp2.
    rewrite <-Hi, Hdrv1 in Hp1. rewrite <-Hi, Hdrv2 in Hp2.
    destruct Hp1 as [_ Hp1], Hp2 as [_ Hp2].
    rewrite Htrace in Hp2. rewrite Hh2. simpl. rewrite Hp2.
    replace (objects h1) with (objects d1) by by rewrite Hh1.
    unfold or_last in *. by destruct (last (bpy.single_euler <$> rotations_set t1)).
Qed.

Lemma rerun_repeats_host_calls_sample :
  events Sample.second_run = events Sample.first_run /\
  objects (final_host Sample.second_run) = objects (final_host Sample.first_run) /\
  collections (final_host Sample.second_run)
  = collections (final_host Sample.first_run) /\
  scene_camera (final_host Sample.second_run)
  = scene_camera (final_host Sample.first_run) /\
  filepath (final_host Sample.second_run) = filepath (final_host Sample.first_run).
Proof.
  apply (rerun_repeats_host_calls (H := Sample.steady) Sample.two_nodes
           [1%nat; 2%nat] tt tt).
  - vm_compute. reflexivity.
  - intros c [= <-]. set_solver.
  - vm_compute. reflexivity.
  - vm_compute. reflexivity.
Defined.
